(** * project-analyzer.js: the file collector, the digest builder and the
      report runner

    A shallow embedding of [src/project-analyzer.js].  The script walks a
    directory, keeps the paths of the source files it finds, pastes the first
    lines of the first few of them into one text (the digest), writes the
    digest to [_project_analysis.txt], runs the external [qwen] tool on it
    and, when the tool succeeds, writes its standard output to
    [_qwen_analysis_report.txt].

    The script talks to three things outside itself: the file system it
    reads ([fs.readdir], [fs.stat], [fs.readFile]), the working directory it
    writes its two artifacts to ([fs.writeFile]) and the external process
    ([exec]).  The first is an oracle [filesystem], the second a finite map
    from file names to contents, the third an oracle giving the arguments the
    completion callback is called with. *)

From Stdlib Require Import Ascii.
From stdpp Require Import gmap strings list.

(** ** JavaScript strings and arrays *)

Module Js.

Definition LF : ascii := "010"%char.
Definition SLASH : ascii := "/"%char.

(** The one-character string ['\n']. *)
Definition nl : string := String LF "".

(** Prepends a character to the first piece of a split. *)
Definition cons_head (c : ascii) (pieces : list string) : list string :=
  match pieces with
  | [] => [String c ""]
  | x :: rest => String c x :: rest
  end.

(** [s.split(sep)] for a one-character separator: the pieces between the
    separators, [""] giving the one-piece array [[""]]. *)
Fixpoint split (sep : ascii) (s : string) : list string :=
  match s with
  | EmptyString => [""]
  | String c s' =>
      if Ascii.eqb c sep then "" :: split sep s'
      else cons_head c (split sep s')
  end.

(** [pieces.join(sep)]. *)
Fixpoint join (sep : string) (pieces : list string) : string :=
  match pieces with
  | [] => ""
  | [x] => x
  | x :: rest => x +:+ sep +:+ join sep rest
  end.

(** [arr.slice(0, n)]. *)
Definition slice0 {A} (n : nat) (arr : list A) : list A := take n arr.

(** [s.endsWith(suffix)]. *)
Fixpoint endsWith (s suffix : string) : bool :=
  if String.eqb s suffix then true
  else match s with
       | EmptyString => false
       | String _ s' => endsWith s' suffix
       end.

(** [arr.includes(x)] on an array of strings. *)
Definition includes (arr : list string) (x : string) : bool :=
  bool_decide (x ∈ arr).

(** [arr.some(p)]. *)
Definition some {A} (p : A → bool) (arr : list A) : bool := existsb p arr.

(** A string is one piece when splitting it gives it back alone: it does
    not hold the separator. *)
Definition one_piece (sep : ascii) (s : string) : Prop := split sep s = [s].

End Js.

(** ** Results of the fallible calls *)

(** What a rejected promise or a failing callback carries: the error, kept
    as its code or message. *)
Definition error := string.

Inductive result (A : Type) : Type :=
| Ok (a : A)
| Throw (e : error).
Arguments Ok {A} a.
Arguments Throw {A} e.

(** An [async] computation under a bound on the recursion depth: [None] when
    the bound was too small, otherwise the value the promise fulfils with or
    the error it rejects with. *)
Definition promise (A : Type) : Type := option (result A).

Definition resolve {A} (a : A) : promise A := Some (Ok a).
Definition reject {A} (e : error) : promise A := Some (Throw e).
Definition settled {A} (r : result A) : promise A := Some r.

Definition then_ {A B} (m : promise A) (k : A → promise B) : promise B :=
  match m with
  | Some (Ok a) => k a
  | Some (Throw e) => Some (Throw e)
  | None => None
  end.

Notation "'await' x '<-' m ';' k" := (then_ m (λ x, k))
  (at level 10, x name, m at level 100, k at level 200, only parsing).

(** ** The file system that is read *)

(** [fs.stat] gives an object of which the script only asks
    [isDirectory()]. *)
Record Stats := { isDirectory : bool }.

Record filesystem := {
  readdir : string → result (list string);
  stat : string → result Stats;
  readFile : string → result string
}.

(** [path.join(currentPath, item)] (POSIX) where [currentPath] is ['.'] or a
    normalised path that does not end in a separator and [item] is an entry
    name: the two joined by a separator, a leading ['.'] dropped. *)
Definition path_join (currentPath item : string) : string :=
  if String.eqb currentPath "." then item
  else currentPath +:+ "/" +:+ item.

(** ** findImportantFiles *)

Definition importantExtensions : list string :=
  [".js"; ".ts"; ".jsx"; ".tsx"; ".py"; ".java"; ".cpp"; ".go"].

Definition ignoreDirs : list string :=
  ["node_modules"; ".git"; "dist"; "build"].

Section Collector.

Variable fs : filesystem.

(** The [for (const item of items)] loop of [scan], with the recursive
    call passed in; [files] is the array the closure pushes to. *)
Fixpoint scan_items (rec : string → list string → promise (list string))
    (currentPath : string) (items : list string) (files : list string)
    : promise (list string) :=
  match items with
  | [] => resolve files
  | item :: rest =>
      let fullPath := path_join currentPath item in
      await st <- settled (stat fs fullPath);
      if isDirectory st then
        if negb (Js.includes ignoreDirs item) then
          await files' <- rec fullPath files;
          scan_items rec currentPath rest files'
        else scan_items rec currentPath rest files
      else if Js.some (λ ext, Js.endsWith item ext) importantExtensions then
        scan_items rec currentPath rest (files ++ [fullPath])
      else scan_items rec currentPath rest files
  end.

Fixpoint scan (fuel : nat) (currentPath : string) (files : list string)
    : promise (list string) :=
  match fuel with
  | 0 => None
  | S fuel' =>
      await items <- settled (readdir fs currentPath);
      scan_items (scan fuel') currentPath items files
  end.

Definition findImportantFiles (fuel : nat) (dir : string)
    : promise (list string) :=
  scan fuel dir [].

End Collector.

(** ** The working directory that is written, the console and the tool *)

(** What the run does that can be seen from outside, in order. *)
Inductive event : Type :=
| ConsoleLog (args : list string)
| ConsoleError (args : list string)
| WriteFile (file data : string)
| Exec (command : string).

(** [disk] holds the files of the working directory by name; [trace] is the
    history of the run, oldest event first. *)
Record world := {
  disk : gmap string string;
  trace : list event
}.

Definition record (ev : event) (w : world) : world :=
  {| disk := disk w; trace := trace w ++ [ev] |}.

Definition console_log (args : list string) (w : world) : world :=
  record (ConsoleLog args) w.

Definition console_error (args : list string) (w : world) : world :=
  record (ConsoleError args) w.

(** [fs.writeFile(file, data)]: the file is created or replaced.  Writes to
    the working directory are taken to succeed. *)
Definition writeFile (file data : string) (w : world) : world :=
  record (WriteFile file data)
         {| disk := <[file := data]> (disk w); trace := trace w |}.

(** The arguments [exec] calls its callback with: [error] is [null] when the
    process ran and exited with code 0. *)
Record callback_args := {
  cb_error : option error;
  cb_stdout : string;
  cb_stderr : string
}.

(** The external tool: what a command line run over a working directory
    comes back with. *)
Definition tool := string → gmap string string → callback_args.

(** [exec(command, callback)]: the command is started and the callback runs
    when it ends. *)
Definition exec (qwen : tool) (command : string)
    (callback : callback_args → world → world) (w : world) : world :=
  let w := record (Exec command) w in
  callback (qwen command (disk w)) w.

(** ** analyzeProject *)

Definition digest_file : string := "_project_analysis.txt".
Definition report_file : string := "_qwen_analysis_report.txt".

Definition digest_header : string := "# Анализ проекта" +:+ Js.nl +:+ Js.nl.

Definition qwen_command : string :=
  "qwen code --file _project_analysis.txt " +:+ String "034"
  ("Проанализируй этот проект. Найди: 1) Ошибки и баги, 2) Проблемы архитектуры, 3) Возможности оптимизации, 4) Нарушения best practices. Предложи конкретные исправления."
   +:+ String "034" "").

(** [content.split('\n').slice(0, 50).join('\n')]. *)
Definition excerpt (content : string) : string :=
  Js.join Js.nl (Js.slice0 50 (Js.split Js.LF content)).

(** The template literal appended for one file. *)
Definition section_of (file lines : string) : string :=
  "## Файл: " +:+ file +:+ Js.nl +:+ "```" +:+ Js.nl +:+ lines +:+ Js.nl
  +:+ "```" +:+ Js.nl +:+ Js.nl.

Definition unreadable_warning (file : string) : string :=
  "⚠️ Не удалось прочитать: " +:+ file.

(** The fixed messages of the script. *)
Definition msg_scanning : string := "📁 Анализирую структуру проекта...".
Definition msg_sending : string := "🤖 Отправляю на анализ Qwen...".
Definition msg_failed : string := "❌ Ошибка:".
Definition msg_results : string := "📝 Результаты анализа:".
Definition msg_saved : string := "✅ Отчёт сохранён в _qwen_analysis_report.txt".

Section Analyzer.

Variable fs : filesystem.
Variable qwen : tool.

(** One turn of the [for (const file of ...)] loop: the [try] block reads
    the file and appends its section, the [catch] block logs the warning.
    The state is [projectContext] and the world. *)
Definition digest_step (st : string * world) (file : string)
    : string * world :=
  let '(projectContext, w) := st in
  match readFile fs file with
  | Ok content =>
      let lines := excerpt content in
      (projectContext +:+ section_of file lines, w)
  | Throw err =>
      (projectContext, console_log [unreadable_warning file] w)
  end.

Definition digest_loop (selected : list string) (st : string * world)
    : string * world :=
  foldl digest_step st selected.

(** The callback given to [exec]. *)
Definition on_exit (args : callback_args) (w : world) : world :=
  match cb_error args with
  | Some err => console_error [msg_failed; err] w
  | None =>
      let w := console_log [msg_results] w in
      let w := console_log [cb_stdout args] w in
      let w := writeFile report_file (cb_stdout args) w in
      console_log [msg_saved] w
  end.

(** [analyzeProject(projectPath)]: how the promise settles and the world
    it leaves, the completion callback of [exec] included. *)
Definition analyzeProject (fuel : nat) (projectPath : string) (w : world)
    : option (result () * world) :=
  let w := console_log [msg_scanning] w in
  match findImportantFiles fs fuel projectPath with
  | None => None
  | Some (Throw e) => Some (Throw e, w)
  | Some (Ok importantFiles) =>
      let '(projectContext, w) :=
        digest_loop (Js.slice0 10 importantFiles) (digest_header, w) in
      let w := writeFile digest_file projectContext w in
      let w := console_log [msg_sending] w in
      let w := exec qwen qwen_command on_exit w in
      Some (Ok (), w)
  end.

(** The last line of the script: [analyzeProject('.').catch(console.error)]. *)
Definition main (fuel : nat) (w : world) : option world :=
  match analyzeProject fuel "." w with
  | None => None
  | Some (Ok _, w) => Some w
  | Some (Throw e, w) => Some (console_error [e] w)
  end.

End Analyzer.

(** ** Vocabulary of the properties *)

(** The segments of a path, and those of the directory the scan starts from
    (['.'] is dropped by [path.join], so it contributes none). *)
Definition segments (p : string) : list string := Js.split Js.SLASH p.

Definition root_segments (dir : string) : list string :=
  if String.eqb dir "." then [] else segments dir.

(** What [fs.readdir] yields are entry names: no separator inside, and never
    ['.']. *)
Definition entry_name (item : string) : Prop :=
  Js.one_piece Js.SLASH item ∧ item ≠ ".".

Definition proper_listing (fs : filesystem) : Prop :=
  ∀ p items item, readdir fs p = Ok items → item ∈ items → entry_name item.

Definition important (item : string) : bool :=
  Js.some (λ ext, Js.endsWith item ext) importantExtensions.

(** [collectible fs cur p]: below the directory [cur], [p] is the path of an
    entry that is not a directory, whose name has an important extension, and
    that is reached through directories none of which is named in
    [ignoreDirs]. *)
Inductive collectible (fs : filesystem) : string → string → Prop :=
| collectible_here cur items item st :
    readdir fs cur = Ok items → item ∈ items →
    stat fs (path_join cur item) = Ok st → isDirectory st = false →
    important item = true →
    collectible fs cur (path_join cur item)
| collectible_below cur items item st p :
    readdir fs cur = Ok items → item ∈ items →
    stat fs (path_join cur item) = Ok st → isDirectory st = true →
    item ∉ ignoreDirs →
    collectible fs (path_join cur item) p →
    collectible fs cur p.

(** [visited fs cur p]: the directory [p] is [cur] or lies below it behind
    directories the scan descends into. *)
Inductive visited (fs : filesystem) : string → string → Prop :=
| visited_here cur : visited fs cur cur
| visited_below cur items item st p :
    readdir fs cur = Ok items → item ∈ items →
    stat fs (path_join cur item) = Ok st → isDirectory st = true →
    item ∉ ignoreDirs →
    visited fs (path_join cur item) p →
    visited fs cur p.

(** The two ways the walk can fail at a directory [p]: it cannot be listed,
    or the metadata of one of its entries cannot be read. *)
Inductive failure_at (fs : filesystem) (p : string) (e : error) : Prop :=
| unlistable : readdir fs p = Throw e → failure_at fs p e
| no_metadata items item :
    readdir fs p = Ok items → item ∈ items →
    stat fs (path_join p item) = Throw e → failure_at fs p e.

(** [within_depth fs n p]: the directories the scan descends into from [p]
    are nested less than [n] deep below [p]. *)
Inductive within_depth (fs : filesystem) : nat → string → Prop :=
| depth_unlistable n p e :
    readdir fs p = Throw e → within_depth fs (S n) p
| depth_listed n p items :
    readdir fs p = Ok items →
    (∀ item st, item ∈ items →
       stat fs (path_join p item) = Ok st → isDirectory st = true →
       item ∉ ignoreDirs → within_depth fs n (path_join p item)) →
    within_depth fs (S n) p.

(** A digest read as its sections, each the path of a file and the lines
    put between its fences. *)
Definition render (sections : list (string * string)) : string :=
  foldr (λ sec rest, section_of sec.1 sec.2 +:+ rest) "" sections.

(** The section of a file, when it can be read. *)
Definition section_for (fs : filesystem) (file : string)
    : option (string * string) :=
  match readFile fs file with
  | Ok content => Some (file, excerpt content)
  | Throw _ => None
  end.

(** The warning for a file, when it cannot be read. *)
Definition warning_for (fs : filesystem) (file : string) : option event :=
  match readFile fs file with
  | Ok _ => None
  | Throw _ => Some (ConsoleLog [unreadable_warning file])
  end.

(** The number of lines of a text, as [split('\n')] counts them. *)
Definition line_count (text : string) : nat :=
  length (Js.split Js.LF text).

(** The digest written for a list of collected files. *)
Definition digest_of (fs : filesystem) (files : list string) : string :=
  digest_header +:+ render (omap (section_for fs) (take 10 files)).

(** The world when the tool is started: the digest is on the disk and the
    history holds the start message, the warnings, the write, the second
    message and the command. *)
Definition world_at_exec (fs : filesystem) (files : list string) (w : world)
    : world :=
  {| disk := <[digest_file := digest_of fs files]> (disk w);
     trace := trace w ++ [ConsoleLog [msg_scanning]]
              ++ omap (warning_for fs) (take 10 files)
              ++ [WriteFile digest_file (digest_of fs files);
                  ConsoleLog [msg_sending];
                  Exec qwen_command] |}.

(** What one entry of a directory brings to the list, [sub] being the scan
    of a subdirectory: nothing for an ignored directory and for a file
    without an important extension, its path for an important file, the list
    of the subdirectory otherwise. *)
Definition entry_files (fs : filesystem)
    (sub : string → promise (list string)) (cur item : string)
    : promise (list string) :=
  await st <- settled (stat fs (path_join cur item));
  if isDirectory st then
    if bool_decide (item ∈ ignoreDirs) then resolve []
    else sub (path_join cur item)
  else if important item then resolve [path_join cur item]
  else resolve [].

(** The listings of a file system do not repeat a name. *)
Definition distinct_listing (fs : filesystem) : Prop :=
  ∀ p items, readdir fs p = Ok items → NoDup items.

(** Whether [fs.readFile] gives the text of a file. *)
Definition is_readable (fs : filesystem) (file : string) : bool :=
  match readFile fs file with
  | Ok _ => true
  | Throw _ => false
  end.

(** ** Sample file systems, tools and worlds *)

Module Samples.

Definition directory : Stats := {| isDirectory := true |}.
Definition file : Stats := {| isDirectory := false |}.

(** A project with a source file at the top, a source directory with two
    files of which one cannot be read, a build directory and a text file. *)
Definition project : filesystem := {|
  readdir p :=
    if String.eqb p "." then Ok ["a.js"; "build"; "src"; "notes.txt"]
    else if String.eqb p "src" then Ok ["m.py"; "lib.js"]
    else if String.eqb p "build" then Ok ["out.js"]
    else Throw "ENOTDIR";
  stat p :=
    if String.eqb p "build" then Ok directory
    else if String.eqb p "src" then Ok directory
    else Ok file;
  readFile p :=
    if String.eqb p "a.js" then Ok ("let x = 1;" +:+ Js.nl +:+ "let y = 2;")
    else if String.eqb p "src/lib.js" then Ok "export {};"
    else if String.eqb p "src/m.py" then Throw "EACCES"
    else Throw "ENOENT"
|}.

(** A project whose source directory cannot be listed. *)
Definition locked : filesystem := {|
  readdir p :=
    if String.eqb p "." then Ok ["a.js"; "src"]
    else if String.eqb p "src" then Throw "EACCES"
    else Throw "ENOTDIR";
  stat p := if String.eqb p "src" then Ok directory else Ok file;
  readFile p := Throw "ENOENT"
|}.

(** A directory without source files. *)
Definition bare : filesystem := {|
  readdir p := if String.eqb p "." then Ok ["README.md"] else Throw "ENOTDIR";
  stat p := Ok file;
  readFile p := Throw "ENOENT"
|}.

Definition long_text : string := Js.join Js.nl (replicate 800 "x = x + 1").
Definition short_text : string := Js.join Js.nl (replicate 10 "pass").

(** The directory of three files, listed in an order of its own. *)
Definition three : filesystem := {|
  readdir p :=
    if String.eqb p "." then Ok ["c.txt"; "b.py"; "a.js"]
    else Throw "ENOTDIR";
  stat p := Ok file;
  readFile p :=
    if String.eqb p "a.js" then Ok long_text
    else if String.eqb p "b.py" then Ok short_text
    else Ok "notes"
|}.

Definition answering : tool :=
  λ _ _, {| cb_error := None; cb_stdout := "OK"; cb_stderr := "" |}.

Definition failing : tool :=
  λ _ _, {| cb_error := Some "Command failed"; cb_stdout := "";
            cb_stderr := "qwen: command not found" |}.

Definition fresh : world := {| disk := ∅; trace := [] |}.

(** A working directory that holds the report of an earlier run. *)
Definition used : world :=
  {| disk := {[report_file := "old report"]}; trace := [] |}.

(** A project whose dependency directory cannot be listed. *)
Definition shielded : filesystem := {|
  readdir p :=
    if String.eqb p "." then Ok ["node_modules"; "a.js"]
    else if String.eqb p "node_modules" then Throw "EACCES"
    else Throw "ENOTDIR";
  stat p := if String.eqb p "node_modules" then Ok directory else Ok file;
  readFile p := Ok "let z = 0;"
|}.

(** The project with other notes and another build output. *)
Definition project_edited : filesystem := {|
  readdir := readdir project;
  stat := stat project;
  readFile p :=
    if String.eqb p "notes.txt" then Ok "rewritten"
    else if String.eqb p "build/out.js" then Ok "minified"
    else readFile project p
|}.

End Samples.

(** * Properties *)

(** ** Strings *)

Module JsFacts.
Import Js.

Lemma append_cons c (a b : string) : String c a +:+ b = String c (a +:+ b).
Proof. reflexivity. Qed.

Lemma append_nil_l (s : string) : "" +:+ s = s.
Proof. reflexivity. Qed.

Lemma append_nil_r (s : string) : s +:+ "" = s.
Proof.
  induction s as [|c s IH]; [done |]. by rewrite append_cons, IH.
Qed.

Lemma append_assoc (a b c : string) : (a +:+ b) +:+ c = a +:+ b +:+ c.
Proof.
  induction a as [|x a IH]; [done |]. by rewrite !append_cons, IH.
Qed.

Lemma split_not_nil sep s : split sep s ≠ [].
Proof.
  destruct s as [|c s]; simpl; [done |].
  destruct (Ascii.eqb c sep); [done |].
  by destruct (split sep s).
Qed.

Lemma cons_head_app c l1 l2 :
  l1 ≠ [] → cons_head c (l1 ++ l2) = cons_head c l1 ++ l2.
Proof. by destruct l1. Qed.

(** Splitting around a separator splits the two sides. *)
Lemma split_app_sep sep a b :
  split sep (a +:+ String sep b) = split sep a ++ split sep b.
Proof.
  induction a as [|c a IH].
  - rewrite append_nil_l. simpl. by rewrite Ascii.eqb_refl.
  - rewrite append_cons. simpl.
    destruct (Ascii.eqb c sep); rewrite IH; [done |].
    apply cons_head_app, split_not_nil.
Qed.

Lemma join_cons sep x y l :
  join sep (x :: y :: l) = x +:+ sep +:+ join sep (y :: l).
Proof. done. Qed.

Lemma join_cons_head c sep l :
  l ≠ [] → join sep (cons_head c l) = String c (join sep l).
Proof. destruct l as [|x [|y l]]; done. Qed.

(** [s.split(sep).join(sep)] is [s]. *)
Lemma join_split sep s : join (String sep "") (split sep s) = s.
Proof.
  induction s as [|c s IH]; simpl; [done |].
  destruct (Ascii.eqb_spec c sep) as [->|Hne].
  - pose proof (split_not_nil sep s) as Hnil.
    destruct (split sep s) as [|y l] eqn:E; [done |].
    rewrite join_cons, IH. done.
  - rewrite join_cons_head by apply split_not_nil. by rewrite IH.
Qed.

Lemma split_pieces sep s : Forall (one_piece sep) (split sep s).
Proof.
  induction s as [|c s IH]; simpl.
  - by constructor.
  - destruct (Ascii.eqb_spec c sep) as [->|Hne].
    + by constructor.
    + pose proof (split_not_nil sep s) as Hnil.
      destruct (split sep s) as [|y l]; [done |]. simpl.
      inversion IH as [|? ? Hy Hl]; subst. constructor; [|done].
      unfold one_piece in *; simpl.
      destruct (Ascii.eqb_spec c sep); [done |]. by rewrite Hy.
Qed.

Lemma split_one_piece_app sep x b :
  one_piece sep x →
  split sep (x +:+ String sep b) = x :: split sep b.
Proof. intros Hx. by rewrite split_app_sep, Hx. Qed.

(** [pieces.join(sep).split(sep)] is [pieces] when there is at least one
    piece and no piece holds the separator. *)
Lemma split_join sep l :
  l ≠ [] → Forall (one_piece sep) l →
  split sep (join (String sep "") l) = l.
Proof.
  induction l as [|x l IH]; [done |]. intros _ Hall.
  inversion Hall as [|? ? Hx Hl]; subst.
  destruct l as [|y l]; [exact Hx |].
  rewrite join_cons, append_cons, append_nil_l.
  rewrite split_one_piece_app by done. f_equal. by apply IH.
Qed.

Lemma endsWith_self s : endsWith s s = true.
Proof. destruct s; simpl; by rewrite ?Ascii.eqb_refl, ?String.eqb_refl. Qed.

Lemma endsWith_cons c s suffix :
  endsWith (String c s) suffix =
  if String.eqb (String c s) suffix then true else endsWith s suffix.
Proof. reflexivity. Qed.

Lemma endsWith_spec s suffix :
  endsWith s suffix = true ↔ ∃ pre, s = pre +:+ suffix.
Proof.
  split.
  - induction s as [|c s IH].
    + destruct suffix; [by exists "" | done].
    + rewrite endsWith_cons.
      destruct (String.eqb_spec (String c s) suffix) as [<-|].
      * intros _. by exists "".
      * intros H. destruct (IH H) as [pre ->]. by exists (String c pre).
  - intros [pre ->]. induction pre as [|c pre IH].
    + rewrite append_nil_l. apply endsWith_self.
    + rewrite append_cons, endsWith_cons, IH. by destruct (String.eqb _ _).
Qed.

Lemma endsWith_append pre s suffix :
  endsWith s suffix = true → endsWith (pre +:+ s) suffix = true.
Proof.
  rewrite !endsWith_spec. intros [q ->]. exists (pre +:+ q).
  by rewrite append_assoc.
Qed.

End JsFacts.

(** ** The collector *)

Section CollectorFacts.

Variable fs : filesystem.

(** One turn of the loop of [scan], by what [fs.stat] says of the entry. *)
Lemma scan_items_cons rec cur item rest files :
  scan_items fs rec cur (item :: rest) files =
  match stat fs (path_join cur item) with
  | Throw e => reject e
  | Ok st =>
      if isDirectory st then
        if bool_decide (item ∈ ignoreDirs)
        then scan_items fs rec cur rest files
        else then_ (rec (path_join cur item) files)
                   (scan_items fs rec cur rest)
      else if important item
           then scan_items fs rec cur rest (files ++ [path_join cur item])
           else scan_items fs rec cur rest files
  end.
Proof.
  simpl. destruct (stat fs (path_join cur item)) as [st|e]; [|done].
  simpl. destruct (isDirectory st); [|done].
  unfold Js.includes. by destruct (bool_decide _).
Qed.

Lemma scan_succ fuel cur files :
  scan fs (S fuel) cur files =
  match readdir fs cur with
  | Throw e => reject e
  | Ok items => scan_items fs (scan fs fuel) cur items files
  end.
Proof. simpl. by destruct (readdir fs cur). Qed.

Local Abbreviation produces cur files out :=
  (∃ added, out = files ++ added ∧ Forall (collectible fs cur) added).

Lemma scan_items_collects rec cur all_items :
  readdir fs cur = Ok all_items →
  (∀ p files out, rec p files = Some (Ok out) → produces p files out) →
  ∀ items files out,
    items ⊆ all_items →
    scan_items fs rec cur items files = Some (Ok out) →
    produces cur files out.
Proof.
  intros Hdir Hrec items.
  induction items as [|item rest IH]; intros files out Hsub.
  - intros [= <-]. exists []. by rewrite app_nil_r.
  - assert (item ∈ all_items) as Hin by (apply Hsub; left).
    assert (rest ⊆ all_items) as Hrest by (intros x Hx; apply Hsub; by right).
    rewrite scan_items_cons.
    destruct (stat fs (path_join cur item)) as [st|e] eqn:Hst; [|done].
    destruct (isDirectory st) eqn:Hd.
    + case_bool_decide as Hign; [by apply IH |].
      destruct (rec (path_join cur item) files) as [[files'|e]|] eqn:Hr;
        [|done..].
      intros Hout.
      destruct (Hrec _ _ _ Hr) as (a1 & -> & Ha1).
      destruct (IH _ _ Hrest Hout) as (a2 & -> & Ha2).
      exists (a1 ++ a2). split; [by rewrite app_assoc |].
      apply Forall_app. split; [|done].
      eapply Forall_impl; [exact Ha1 |]. intros p Hp.
      by eapply collectible_below.
    + destruct (important item) eqn:Himp; [|by apply IH].
      intros Hout. destruct (IH _ _ Hrest Hout) as (a2 & -> & Ha2).
      exists (path_join cur item :: a2).
      split; [by rewrite <- app_assoc |].
      constructor; [|done]. by eapply collectible_here.
Qed.

Lemma scan_collects fuel : ∀ cur files out,
  scan fs fuel cur files = Some (Ok out) → produces cur files out.
Proof.
  induction fuel as [|fuel IH]; intros cur files out; [done |].
  rewrite scan_succ.
  destruct (readdir fs cur) as [items|e] eqn:Hdir; [|done].
  by apply (scan_items_collects (scan fs fuel) cur items).
Qed.

Lemma findImportantFiles_collectible fuel dir files p :
  findImportantFiles fs fuel dir = Some (Ok files) →
  p ∈ files → collectible fs dir p.
Proof.
  intros Hrun Hp. destruct (scan_collects _ _ _ _ Hrun) as (added & -> & Hall).
  rewrite app_nil_l in Hp. by eapply Forall_forall in Hall.
Qed.

End CollectorFacts.

(** ** Termination and failure of the walk *)

Section WalkFacts.

Variable fs : filesystem.

(** The loop gives the same result with a recursive call that agrees on
    the results it gives. *)
Lemma scan_items_mono rec1 rec2 cur :
  (∀ p files r, rec1 p files = Some r → rec2 p files = Some r) →
  ∀ items files r,
    scan_items fs rec1 cur items files = Some r →
    scan_items fs rec2 cur items files = Some r.
Proof.
  intros Hrec items. induction items as [|item rest IH]; intros files r;
    [done |].
  rewrite !scan_items_cons.
  destruct (stat fs (path_join cur item)) as [st|e]; [|done].
  destruct (isDirectory st); [|destruct (important item); apply IH].
  case_bool_decide; [apply IH |].
  destruct (rec1 (path_join cur item) files) as [r1|] eqn:H1; [|done].
  rewrite (Hrec _ _ _ H1). destruct r1 as [files'|e]; [apply IH | done].
Qed.

(** More fuel does not change a result. *)
Lemma scan_fuel_mono n : ∀ m cur files r,
  n ≤ m → scan fs n cur files = Some r → scan fs m cur files = Some r.
Proof.
  induction n as [|n IH]; intros m cur files r Hle; [done |].
  destruct m as [|m]; [lia |]. rewrite !scan_succ.
  destruct (readdir fs cur) as [items|e]; [|done].
  apply scan_items_mono. intros p f r'. apply IH. lia.
Qed.

Lemma scan_items_total rec cur items :
  (∀ item st, item ∈ items →
     stat fs (path_join cur item) = Ok st → isDirectory st = true →
     item ∉ ignoreDirs →
     ∀ files, is_Some (rec (path_join cur item) files)) →
  ∀ files, is_Some (scan_items fs rec cur items files).
Proof.
  induction items as [|item rest IH]; intros Hrec files; [by eexists |].
  assert (∀ files, is_Some (scan_items fs rec cur rest files)) as Hrest.
  { apply IH. intros i st Hi. apply Hrec. by right. }
  rewrite scan_items_cons.
  destruct (stat fs (path_join cur item)) as [st|e] eqn:Hst; [|by eexists].
  destruct (isDirectory st) eqn:Hd; [|destruct (important item); apply Hrest].
  case_bool_decide as Hign; [apply Hrest |].
  destruct (Hrec item st (list_elem_of_here _ _) Hst Hd Hign files)
    as [[files'|e] ->]; [apply Hrest | by eexists].
Qed.

(** The walk ends when the directories it descends into are nested
    finitely deep. *)
Lemma scan_total n cur :
  within_depth fs n cur → ∀ files, is_Some (scan fs n cur files).
Proof.
  induction 1 as [n p e Hdir|n p items Hdir _ IH]; intros files;
    rewrite scan_succ, Hdir; [by eexists |].
  by apply scan_items_total.
Qed.

(** Where the loop fulfils, every entry had metadata and every directory
    descended into was scanned with success. *)
Lemma scan_items_ok_inv rec cur items : ∀ files out,
  scan_items fs rec cur items files = Some (Ok out) →
  ∀ item, item ∈ items →
    ∃ st, stat fs (path_join cur item) = Ok st ∧
          (isDirectory st = true → item ∉ ignoreDirs →
           ∃ files' out', rec (path_join cur item) files' = Some (Ok out')).
Proof.
  induction items as [|item rest IH]; intros files out Hrun i Hi.
  { by apply elem_of_nil in Hi. }
  rewrite scan_items_cons in Hrun.
  destruct (stat fs (path_join cur item)) as [st|e] eqn:Hst; [|done].
  assert (∃ files1,
    scan_items fs rec cur rest files1 = Some (Ok out) ∧
    (isDirectory st = true → item ∉ ignoreDirs →
     ∃ files' out', rec (path_join cur item) files' = Some (Ok out')))
    as (files1 & Hrest & Hitem).
  { destruct (isDirectory st).
    - case_bool_decide as Hign; [by exists files |].
      destruct (rec (path_join cur item) files) as [[files'|e]|] eqn:Hr;
        [|done..].
      exists files'. eauto.
    - destruct (important item); eexists; by split. }
  apply elem_of_cons in Hi as [->|Hi]; [by exists st |].
  by eapply IH.
Qed.

(** A walk that fulfils met no failure. *)
Lemma scan_ok_no_failure fuel : ∀ cur files out,
  scan fs fuel cur files = Some (Ok out) →
  ∀ p e, visited fs cur p → failure_at fs p e → False.
Proof.
  induction fuel as [|fuel IH]; intros cur files out Hrun p e Hvis Hfail;
    [done |].
  rewrite scan_succ in Hrun.
  destruct (readdir fs cur) as [items|e0] eqn:Hdir; [|done].
  pose proof (scan_items_ok_inv _ _ _ _ _ Hrun) as Hitems.
  destruct Hvis as [cur|cur items' item st p Hdir' Hin Hst Hd Hign Hvis].
  - destruct Hfail as [Hno|items' item Hdir' Hin Hst]; [congruence |].
    assert (items' = items) as -> by congruence.
    destruct (Hitems item Hin) as (st & Hst' & _). congruence.
  - assert (items' = items) as -> by congruence.
    destruct (Hitems item Hin) as (st' & Hst' & Hsub).
    assert (st' = st) as -> by congruence.
    destruct (Hsub Hd Hign) as (files' & out' & Hrec).
    by eapply IH.
Qed.

Lemma scan_items_throw_inv rec cur items e : ∀ files,
  scan_items fs rec cur items files = Some (Throw e) →
  ∃ item, item ∈ items ∧
    (stat fs (path_join cur item) = Throw e ∨
     ∃ st files', stat fs (path_join cur item) = Ok st ∧
       isDirectory st = true ∧ (item ∉ ignoreDirs) ∧
       rec (path_join cur item) files' = Some (Throw e)).
Proof.
  induction items as [|item rest IH]; intros files Hrun; [done |].
  rewrite scan_items_cons in Hrun.
  assert (∀ files1, scan_items fs rec cur rest files1 = Some (Throw e) →
    ∃ i, i ∈ item :: rest ∧
      (stat fs (path_join cur i) = Throw e ∨
       ∃ st files', stat fs (path_join cur i) = Ok st ∧
         isDirectory st = true ∧ (i ∉ ignoreDirs) ∧
         rec (path_join cur i) files' = Some (Throw e))) as Hrest.
  { intros files1 H1. destruct (IH _ H1) as (i & Hi & Hcase).
    exists i. split; [by right | done]. }
  destruct (stat fs (path_join cur item)) as [st|e0] eqn:Hst.
  - destruct (isDirectory st) eqn:Hd.
    + case_bool_decide as Hign; [by eapply Hrest |].
      destruct (rec (path_join cur item) files) as [[files'|e1]|] eqn:Hr;
        [by eapply Hrest | | done].
      injection Hrun as ->. exists item. split; [by left |].
      right. exists st, files. by rewrite Hst.
    + destruct (important item); by eapply Hrest.
  - injection Hrun as ->. exists item. split; [by left | by left].
Qed.

(** The error a walk rejects with is the error of a failure it met. *)
Lemma scan_throw_failure fuel : ∀ cur files e,
  scan fs fuel cur files = Some (Throw e) →
  ∃ p, visited fs cur p ∧ failure_at fs p e.
Proof.
  induction fuel as [|fuel IH]; intros cur files e Hrun; [done |].
  rewrite scan_succ in Hrun.
  destruct (readdir fs cur) as [items|e0] eqn:Hdir.
  - apply scan_items_throw_inv in Hrun
      as (item & Hin & [Hst|(st & files' & Hst & Hd & Hign & Hrec)]).
    + exists cur. split; [constructor | by eapply no_metadata].
    + destruct (IH _ _ _ Hrec) as (p & Hvis & Hfail).
      exists p. split; [by eapply visited_below | done].
  - injection Hrun as ->. exists cur. split; [constructor | by left].
Qed.

(** The array only grows. *)
Lemma scan_items_grows rec cur items :
  (∀ p files out, rec p files = Some (Ok out) → files ⊆ out) →
  ∀ files out,
    scan_items fs rec cur items files = Some (Ok out) → files ⊆ out.
Proof.
  intros Hrec. induction items as [|item rest IH]; intros files out.
  { by intros [= <-]. }
  rewrite scan_items_cons.
  destruct (stat fs (path_join cur item)) as [st|e]; [|done].
  destruct (isDirectory st).
  - case_bool_decide; [apply IH |].
    destruct (rec (path_join cur item) files) as [[files'|e]|] eqn:Hr;
      [|done..].
    intros Hout. etrans; [by eapply Hrec | by eapply IH].
  - destruct (important item); [|apply IH].
    intros Hout%IH. intros x Hx. apply Hout, elem_of_app. by left.
Qed.

Lemma scan_grows fuel : ∀ cur files out,
  scan fs fuel cur files = Some (Ok out) → files ⊆ out.
Proof.
  induction fuel as [|fuel IH]; intros cur files out; [done |].
  rewrite scan_succ. destruct (readdir fs cur) as [items|e]; [|done].
  by apply scan_items_grows.
Qed.

(** Where the loop fulfils, the important files among the entries are in
    the array, and so is what the scans of the directories descended into
    put there. *)
Lemma scan_items_complete rec cur items :
  (∀ p files out, rec p files = Some (Ok out) → files ⊆ out) →
  ∀ files out,
    scan_items fs rec cur items files = Some (Ok out) →
    ∀ item st, item ∈ items → stat fs (path_join cur item) = Ok st →
      (isDirectory st = false → important item = true →
       path_join cur item ∈ out) ∧
      (isDirectory st = true → item ∉ ignoreDirs →
       ∃ files' out', rec (path_join cur item) files' = Some (Ok out') ∧
                      out' ⊆ out).
Proof.
  intros Hrec. induction items as [|item rest IH];
    intros files out Hrun i st Hi Hst.
  { by apply elem_of_nil in Hi. }
  rewrite scan_items_cons in Hrun.
  apply elem_of_cons in Hi as [->|Hi].
  - rewrite Hst in Hrun. split.
    + intros Hd Himp. rewrite Hd, Himp in Hrun.
      eapply scan_items_grows; [done | done |].
      apply elem_of_app. right. by left.
    + intros Hd Hign. rewrite Hd in Hrun.
      rewrite bool_decide_eq_false_2 in Hrun by done.
      destruct (rec (path_join cur item) files) as [[files'|e]|] eqn:Hr;
        [|done..].
      exists files, files'. split; [done |].
      by eapply scan_items_grows.
  - destruct (stat fs (path_join cur item)) as [st0|e]; [|done].
    destruct (isDirectory st0).
    + case_bool_decide; [by eapply IH |].
      destruct (rec (path_join cur item) files) as [[files'|e]|]; [|done..].
      by eapply IH.
    + destruct (important item); by eapply IH.
Qed.

(** A walk that fulfils returns every collectible path. *)
Lemma scan_complete fuel : ∀ cur files out,
  scan fs fuel cur files = Some (Ok out) →
  ∀ p, collectible fs cur p → p ∈ out.
Proof.
  induction fuel as [|fuel IH]; intros cur files out Hrun p Hp; [done |].
  rewrite scan_succ in Hrun.
  destruct (readdir fs cur) as [items|e0] eqn:Hdir; [|done].
  pose proof (scan_items_complete _ _ _ (scan_grows fuel) _ _ Hrun) as Hall.
  destruct Hp as [cur items' item st Hdir' Hin Hst Hd Himp
                 |cur items' item st p Hdir' Hin Hst Hd Hign Hp];
    assert (items' = items) as -> by congruence.
  - by apply (Hall item st Hin Hst).
  - destruct (Hall item st Hin Hst) as [_ Hsub].
    destruct (Hsub Hd Hign) as (files' & out' & Hrec & Hincl).
    apply Hincl. by eapply IH.
Qed.

(** The loop over a directory without subdirectories pushes the paths of
    its important entries, in the order of the listing. *)
Lemma scan_items_flat rec cur items :
  Forall (λ item, ∃ st, stat fs (path_join cur item) = Ok st ∧
                        isDirectory st = false) items →
  ∀ files,
    scan_items fs rec cur items files =
    Some (Ok (files ++ (path_join cur <$>
                          filter (λ item, important item = true) items))).
Proof.
  induction 1 as [|item rest (st & Hst & Hd) _ IH]; intros files.
  { simpl. by rewrite app_nil_r. }
  rewrite scan_items_cons, Hst, Hd, filter_cons.
  destruct (important item) eqn:Himp; rewrite IH.
  - rewrite decide_True by done. csimpl. by rewrite <- app_assoc.
  - by rewrite decide_False by done.
Qed.

End WalkFacts.

(** ** Paths *)

Section PathFacts.
Import Js JsFacts.

Lemma path_join_other cur item :
  cur ≠ "." → path_join cur item = cur +:+ "/" +:+ item.
Proof.
  intros Hne. unfold path_join.
  by destruct (String.eqb_spec cur ".").
Qed.

Lemma path_join_cases cur item :
  (cur = "." ∧ path_join cur item = item) ∨
  (cur ≠ "." ∧ path_join cur item = cur +:+ "/" +:+ item).
Proof.
  destruct (decide (cur = ".")) as [->|Hne]; [by left |].
  right. by rewrite path_join_other.
Qed.

Lemma path_join_not_dot cur item : item ≠ "." → path_join cur item ≠ ".".
Proof.
  intros Hitem. destruct (path_join_cases cur item) as [[_ ->]|[Hne ->]];
    [done |].
  destruct cur as [|c [|c' cur]]; done.
Qed.

(** Joining an entry name to a directory adds one segment. *)
Lemma segments_path_join cur item :
  one_piece SLASH item →
  segments (path_join cur item) = root_segments cur ++ [item].
Proof.
  intros Hitem. unfold root_segments, segments.
  destruct (path_join_cases cur item) as [[-> ->]|[Hne ->]]; [done |].
  destruct (String.eqb_spec cur "."); [done |].
  change ("/" +:+ item) with (String SLASH item).
  by rewrite split_app_sep, Hitem.
Qed.

Lemma root_segments_path_join cur item :
  entry_name item →
  root_segments (path_join cur item) = root_segments cur ++ [item].
Proof.
  intros [Hone Hdot]. unfold root_segments at 1.
  destruct (String.eqb_spec (path_join cur item) ".") as [Heq|_].
  - by apply path_join_not_dot in Heq.
  - by apply segments_path_join.
Qed.

Lemma endsWith_path_join cur item ext :
  endsWith item ext = true → endsWith (path_join cur item) ext = true.
Proof.
  intros H. destruct (path_join_cases cur item) as [[_ ->]|[_ ->]]; [done |].
  by do 2 apply endsWith_append.
Qed.

Lemma important_spec item :
  important item = true ↔
  ∃ ext, ext ∈ importantExtensions ∧ endsWith item ext = true.
Proof.
  unfold important, some. rewrite existsb_exists.
  by setoid_rewrite list_elem_of_In.
Qed.

End PathFacts.

(** ** What the collector returns *)

Section CollectedPaths.
Import Js JsFacts.

Variable fs : filesystem.

Lemma collectible_extension cur p :
  collectible fs cur p →
  ∃ ext, ext ∈ importantExtensions ∧ endsWith p ext = true.
Proof.
  induction 1 as [cur items item st _ _ _ _ Himp|]; [|done].
  apply important_spec in Himp as (ext & Hext & Hends).
  exists ext. split; [done |]. by apply endsWith_path_join.
Qed.

Lemma collectible_segments cur p :
  proper_listing fs →
  collectible fs cur p →
  ∃ dirs name,
    segments p = root_segments cur ++ dirs ++ [name] ∧
    Forall (λ d, d ∉ ignoreDirs) dirs ∧
    important name = true.
Proof.
  intros Hfs.
  induction 1 as [cur items item st Hdir Hin _ _ Himp
                 |cur items item st p Hdir Hin _ _ Hign _ IH].
  - exists [], item. split; [|done].
    apply segments_path_join. by destruct (Hfs _ _ _ Hdir Hin).
  - destruct IH as (dirs & name & Hseg & Hdirs & Himp).
    exists (item :: dirs), name. split; [|split; [by constructor | done]].
    rewrite Hseg, root_segments_path_join by (by eapply Hfs).
    by rewrite <- app_assoc.
Qed.

Lemma visited_segments cur q :
  proper_listing fs →
  visited fs cur q →
  ∃ dirs, root_segments q = root_segments cur ++ dirs.
Proof.
  intros Hfs.
  induction 1 as [cur|cur items item st q Hdir Hin _ _ _ _ IH].
  - exists []. by rewrite app_nil_r.
  - destruct IH as [dirs ->]. exists (item :: dirs).
    rewrite root_segments_path_join by (by eapply Hfs).
    by rewrite <- app_assoc.
Qed.

Lemma visited_collectible cur q p :
  visited fs cur q → collectible fs q p → collectible fs cur p.
Proof.
  induction 1 as [|cur items item st q Hdir Hin Hst Hd Hign _ IH]; [done |].
  intros Hp. eapply collectible_below; eauto.
Qed.

Lemma collectible_not_directory cur p :
  collectible fs cur p → ∃ st, stat fs p = Ok st ∧ isDirectory st = false.
Proof. induction 1; eauto. Qed.

End CollectedPaths.

(** C1.  Whatever the file system, a path returned by [findImportantFiles]
    does not lie inside an ignored directory: its segments below the scanned
    directory are directory names none of which is in [ignoreDirs], followed
    by the file name.  And the path ends with one of the extensions of
    [importantExtensions]. *)
Theorem findImportantFiles_filters fs fuel dir files p :
  proper_listing fs →
  findImportantFiles fs fuel dir = Some (Ok files) →
  p ∈ files →
  (∃ dirs name,
     segments p = root_segments dir ++ dirs ++ [name] ∧
     Forall (λ d, d ∉ ignoreDirs) dirs) ∧
  (∃ ext, ext ∈ importantExtensions ∧ Js.endsWith p ext = true).
Proof.
  intros Hfs Hrun Hp.
  pose proof (findImportantFiles_collectible fs fuel dir files p Hrun Hp) as Hc.
  split.
  - destruct (collectible_segments fs dir p Hfs Hc)
      as (dirs & name & Hseg & Hdirs & _).
    by exists dirs, name.
  - by apply (collectible_extension fs dir).
Qed.

(** ** The digest *)

Section DigestFacts.
Import Js JsFacts.

Variable fs : filesystem.

Lemma render_app s1 s2 : render (s1 ++ s2) = render s1 +:+ render s2.
Proof.
  induction s1 as [|sec s1 IH]; [done |].
  simpl. by rewrite IH, append_assoc.
Qed.

(** The loop appends the sections of the files that can be read, in order,
    and logs the warnings of the others, in order. *)
Lemma digest_loop_spec selected : ∀ projectContext w,
  digest_loop fs selected (projectContext, w) =
  (projectContext +:+ render (omap (section_for fs) selected),
   {| disk := disk w;
      trace := trace w ++ omap (warning_for fs) selected |}).
Proof.
  unfold digest_loop.
  induction selected as [|file rest IH]; intros ctx w.
  - csimpl. rewrite append_nil_r, app_nil_r. by destruct w.
  - csimpl. unfold section_for at 1, warning_for at 1.
    destruct (readFile fs file) as [content|e]; rewrite IH; csimpl.
    + by rewrite append_assoc.
    + by rewrite <- app_assoc.
Qed.

Lemma omap_section_length files :
  length (omap (section_for fs) files) ≤ length files.
Proof.
  induction files as [|f files IH]; csimpl; [done |].
  destruct (section_for fs f); csimpl; lia.
Qed.

Lemma omap_section_sublist files :
  (omap (section_for fs) files).*1 `sublist_of` files.
Proof.
  induction files as [|f files IH]; csimpl; [done |].
  unfold section_for at 1. destruct (readFile fs f); csimpl.
  - by apply sublist_skip.
  - by apply sublist_cons.
Qed.

(** The excerpt of a text is made of its first 50 lines. *)
Lemma excerpt_lines content :
  split LF (excerpt content) = take 50 (split LF content).
Proof.
  unfold excerpt, slice0, nl. apply split_join.
  - pose proof (split_not_nil LF content).
    by destruct (split LF content).
  - apply Forall_take, split_pieces.
Qed.

Lemma excerpt_line_count content : line_count (excerpt content) ≤ 50.
Proof.
  unfold line_count. rewrite excerpt_lines, length_take. lia.
Qed.

(** A text of at most 50 lines is its own excerpt. *)
Lemma excerpt_short content :
  line_count content ≤ 50 → excerpt content = content.
Proof.
  unfold line_count, excerpt, slice0, nl. intros Hlen.
  rewrite take_ge by done. apply join_split.
Qed.

Lemma omap_section_excerpts files :
  Forall (λ sec, ∃ content,
            readFile fs sec.1 = Ok content ∧ sec.2 = excerpt content)
         (omap (section_for fs) files).
Proof.
  induction files as [|f files IH]; csimpl; [done |].
  unfold section_for at 1.
  destruct (readFile fs f) as [content|e] eqn:Hread; [|done].
  constructor; [|done]. by exists content.
Qed.

Lemma render_contains sections file lines :
  (file, lines) ∈ sections →
  ∃ pre post, render sections = pre +:+ section_of file lines +:+ post.
Proof.
  intros Hin. apply list_elem_of_split in Hin as (s1 & s2 & ->).
  exists (render s1), (render s2). by rewrite render_app.
Qed.

End DigestFacts.

(** ** The run *)

Section RunFacts.

Variable fs : filesystem.
Variable qwen : tool.

Lemma analyzeProject_collected fuel dir w files :
  findImportantFiles fs fuel dir = Some (Ok files) →
  analyzeProject fs qwen fuel dir w =
  Some (Ok (),
        on_exit (qwen qwen_command (disk (world_at_exec fs files w)))
                (world_at_exec fs files w)).
Proof.
  intros Hrun. unfold analyzeProject. rewrite Hrun.
  unfold Js.slice0. rewrite digest_loop_spec.
  unfold exec, writeFile, console_log, record, world_at_exec, digest_of.
  simpl. by rewrite <- !app_assoc.
Qed.

Lemma analyzeProject_rejected fuel dir w e :
  findImportantFiles fs fuel dir = Some (Throw e) →
  analyzeProject fs qwen fuel dir w =
  Some (Throw e, console_log [msg_scanning] w).
Proof. intros Hrun. unfold analyzeProject. by rewrite Hrun. Qed.

Lemma on_exit_failure args w e :
  cb_error args = Some e →
  on_exit args w =
  {| disk := disk w; trace := trace w ++ [ConsoleError [msg_failed; e]] |}.
Proof. intros He. unfold on_exit. by rewrite He. Qed.

Lemma on_exit_success args w :
  cb_error args = None →
  on_exit args w =
  {| disk := <[report_file := cb_stdout args]> (disk w);
     trace := trace w ++ [ConsoleLog [msg_results];
                          ConsoleLog [cb_stdout args];
                          WriteFile report_file (cb_stdout args);
                          ConsoleLog [msg_saved]] |}.
Proof.
  intros He. unfold on_exit. rewrite He.
  unfold writeFile, console_log, record. simpl.
  by rewrite <- !app_assoc.
Qed.

Lemma digest_not_report : digest_file ≠ report_file.
Proof. done. Qed.

Lemma on_exit_keeps_digest args w :
  disk (on_exit args w) !! digest_file = disk w !! digest_file.
Proof.
  unfold on_exit. destruct (cb_error args); [done |].
  simpl. by rewrite lookup_insert_ne.
Qed.

Lemma on_exit_extends args w : ∃ t, trace (on_exit args w) = trace w ++ t.
Proof.
  unfold on_exit. destruct (cb_error args); simpl; eauto.
  eexists. by rewrite <- !app_assoc.
Qed.

Lemma warning_is_log (files : list string) ev :
  ev ∈ omap (warning_for fs) files → ∃ args, ev = ConsoleLog args.
Proof.
  rewrite list_elem_of_omap. intros (file & _ & Hev).
  unfold warning_for in Hev. destruct (readFile fs file); [done |].
  injection Hev as <-. eauto.
Qed.

End RunFacts.

(** C2.  The digest that [analyzeProject] writes is the header followed by
    sections, at most 10 of them, for files taken in order from the first 10
    collected ones; the lines between the fences of a section are the first
    50 lines of its file, so at most 50, whatever the size of the file. *)
Theorem digest_is_bounded fs qwen fuel dir w files :
  findImportantFiles fs fuel dir = Some (Ok files) →
  ∃ w' sections,
    analyzeProject fs qwen fuel dir w = Some (Ok (), w') ∧
    disk w' !! digest_file = Some (digest_header +:+ render sections) ∧
    length sections ≤ 10 ∧
    sections.*1 `sublist_of` take 10 files ∧
    Forall (λ sec, ∃ content,
              readFile fs sec.1 = Ok content ∧
              Js.split Js.LF sec.2 = take 50 (Js.split Js.LF content) ∧
              line_count sec.2 ≤ 50) sections.
Proof.
  intros Hrun. eexists _, (omap (section_for fs) (take 10 files)).
  split; [by apply analyzeProject_collected |].
  split; [|split; [|split]].
  - rewrite on_exit_keeps_digest. simpl. by rewrite lookup_insert_eq.
  - etrans; [apply omap_section_length |]. rewrite length_take. lia.
  - apply omap_section_sublist.
  - eapply Forall_impl; [apply omap_section_excerpts |].
    intros [file lines] (content & Hread & Hlines); simpl in *. subst lines.
    exists content. split; [done |]. split.
    + apply excerpt_lines.
    + apply excerpt_line_count.
Qed.

(** C3.  When a file among the first 10 collected ones cannot be read, the
    warning naming it is logged and the run goes on: the digest is written,
    it holds the section of every file among the first 10 that can be read,
    and the tool is started. *)
Theorem unreadable_file_is_skipped fs qwen fuel dir w files bad e :
  findImportantFiles fs fuel dir = Some (Ok files) →
  bad ∈ take 10 files →
  readFile fs bad = Throw e →
  ∃ w' digest,
    analyzeProject fs qwen fuel dir w = Some (Ok (), w') ∧
    ConsoleLog [unreadable_warning bad] ∈ trace w' ∧
    disk w' !! digest_file = Some digest ∧
    Exec qwen_command ∈ trace w' ∧
    ∀ file content,
      file ∈ take 10 files → readFile fs file = Ok content →
      ∃ pre post, digest = pre +:+ section_of file (excerpt content) +:+ post.
Proof.
  intros Hrun Hbad Hread. eexists _, (digest_of fs files).
  split; [by apply analyzeProject_collected |].
  destruct (on_exit_extends
              (qwen qwen_command (disk (world_at_exec fs files w)))
              (world_at_exec fs files w)) as [t Ht].
  split; [|split; [|split]].
  - assert (ConsoleLog [unreadable_warning bad]
            ∈ omap (warning_for fs) (take 10 files)) as Hwarn.
    { apply list_elem_of_omap. exists bad. split; [done |].
      unfold warning_for. by rewrite Hread. }
    rewrite Ht. unfold world_at_exec. cbn [trace].
    rewrite !elem_of_app. tauto.
  - rewrite on_exit_keeps_digest. simpl. by rewrite lookup_insert_eq.
  - rewrite Ht. unfold world_at_exec. cbn [trace].
    rewrite !elem_of_app, !elem_of_cons. tauto.
  - intros file content Hfile Hcontent.
    destruct (render_contains (omap (section_for fs) (take 10 files))
                file (excerpt content)) as (pre & post & Hrender).
    { apply list_elem_of_omap. exists file. split; [done |].
      unfold section_for. by rewrite Hcontent. }
    exists (digest_header +:+ pre), post. unfold digest_of.
    by rewrite Hrender, JsFacts.append_assoc.
Qed.

(** C4.  When the tool fails, the error is logged, nothing follows it, and
    the report file is left as it was: no write to it happens and its
    content on the disk, or its absence, is that of before the run. *)
Theorem failed_tool_leaves_no_report fs qwen fuel dir w files e :
  findImportantFiles fs fuel dir = Some (Ok files) →
  (∀ d, cb_error (qwen qwen_command d) = Some e) →
  ∃ w' t,
    analyzeProject fs qwen fuel dir w = Some (Ok (), w') ∧
    trace w' = trace w ++ t ++ [ConsoleError [msg_failed; e]] ∧
    (∀ data, WriteFile report_file data ∉ t) ∧
    disk w' !! report_file = disk w !! report_file.
Proof.
  intros Hrun Hfail.
  exists (on_exit (qwen qwen_command (disk (world_at_exec fs files w)))
                  (world_at_exec fs files w)),
         ([ConsoleLog [msg_scanning]]
          ++ omap (warning_for fs) (take 10 files)
          ++ [WriteFile digest_file (digest_of fs files);
              ConsoleLog [msg_sending]; Exec qwen_command]).
  split; [by apply analyzeProject_collected |].
  rewrite (on_exit_failure _ _ e) by apply Hfail.
  unfold world_at_exec. cbn [trace disk].
  split; [by rewrite <- !app_assoc | split].
  - intros data. rewrite !elem_of_app, !elem_of_cons, elem_of_nil.
    intros [[Hin|[]]|[Hin|[Hin|[Hin|[Hin|[]]]]]].
    + discriminate Hin.
    + by apply warning_is_log in Hin as [args Hargs].
    + injection Hin as Hfile _. by apply digest_not_report.
    + discriminate Hin.
    + discriminate Hin.
  - rewrite lookup_insert_ne; [done | apply digest_not_report].
Qed.

(** C5.  When the tool succeeds, the report file holds its standard output,
    the whole of it and nothing else. *)
Theorem report_is_stdout fs qwen fuel dir w files out :
  findImportantFiles fs fuel dir = Some (Ok files) →
  (∀ d, cb_error (qwen qwen_command d) = None ∧
        cb_stdout (qwen qwen_command d) = out) →
  ∃ w',
    analyzeProject fs qwen fuel dir w = Some (Ok (), w') ∧
    WriteFile report_file out ∈ trace w' ∧
    disk w' !! report_file = Some out.
Proof.
  intros Hrun Hok. eexists.
  split; [by apply analyzeProject_collected |].
  set (w1 := world_at_exec fs files w).
  destruct (Hok (disk w1)) as [Hnone Hout].
  rewrite on_exit_success by done. rewrite Hout. cbn [trace disk].
  split; [|by rewrite lookup_insert_eq].
  rewrite !elem_of_app, !elem_of_cons. tauto.
Qed.

(** C8.  A file that cannot be read leaves the digest as it was before the
    file was tried, and the digest built over a list of files is the one
    built over the list without that file: nothing of it appears. *)
Theorem read_failure_leaves_digest fs file e :
  readFile fs file = Throw e →
  (∀ projectContext w,
     (digest_step fs (projectContext, w) file).1 = projectContext) ∧
  (∀ before after projectContext w,
     (digest_loop fs (before ++ file :: after) (projectContext, w)).1 =
     (digest_loop fs (before ++ after) (projectContext, w)).1).
Proof.
  intros Hread. split.
  - intros ctx w. unfold digest_step. by rewrite Hread.
  - intros before after ctx w. rewrite !digest_loop_spec. simpl.
    rewrite !omap_app. csimpl. unfold section_for at 2. by rewrite Hread.
Qed.

(** C9.  When nothing was collected, the digest file is still written, with
    the header alone, and the tool is still started, on a disk where the
    digest file holds the header. *)
Theorem empty_collection_still_runs fs qwen fuel dir w :
  findImportantFiles fs fuel dir = Some (Ok []) →
  ∃ w' w1,
    analyzeProject fs qwen fuel dir w = Some (Ok (), w') ∧
    trace w1 = trace w ++ [ConsoleLog [msg_scanning];
                           WriteFile digest_file digest_header;
                           ConsoleLog [msg_sending];
                           Exec qwen_command] ∧
    disk w1 !! digest_file = Some digest_header ∧
    w' = on_exit (qwen qwen_command (disk w1)) w1 ∧
    disk w' !! digest_file = Some digest_header.
Proof.
  intros Hrun. eexists _, (world_at_exec fs [] w).
  split; [by apply analyzeProject_collected |].
  assert (digest_of fs [] = digest_header) as Hd.
  { unfold digest_of. csimpl. apply JsFacts.append_nil_r. }
  split; [by unfold world_at_exec; rewrite Hd |].
  split; [by simpl; rewrite lookup_insert_eq, Hd |].
  split; [done |].
  rewrite on_exit_keeps_digest. simpl. by rewrite lookup_insert_eq, Hd.
Qed.

(** C6.  When a directory the walk comes to cannot be listed, or the
    metadata of an entry of such a directory cannot be read, the promise of
    [findImportantFiles] is rejected, with the error of such a failure: no
    list is returned.  [analyzeProject] is rejected with it, having written
    nothing. *)
Theorem walk_failure_aborts fs qwen n fuel dir p e w :
  within_depth fs n dir → n ≤ fuel →
  visited fs dir p → failure_at fs p e →
  ∃ e' p',
    findImportantFiles fs fuel dir = Some (Throw e') ∧
    visited fs dir p' ∧ failure_at fs p' e' ∧
    analyzeProject fs qwen fuel dir w =
      Some (Throw e', console_log [msg_scanning] w).
Proof.
  intros Hdepth Hle Hvis Hfail.
  destruct (scan_total fs n dir Hdepth []) as [r Hr].
  apply (scan_fuel_mono fs n fuel) in Hr; [|done].
  destruct r as [out|e'].
  - destruct (scan_ok_no_failure fs _ _ _ _ Hr p e Hvis Hfail).
  - destruct (scan_throw_failure fs _ _ _ _ Hr) as (p' & Hvis' & Hfail').
    exists e', p'. split; [done |]. split; [done |]. split; [done |].
    by apply analyzeProject_rejected.
Qed.

(** C10.  For an entry of a directory the walk comes to: when it is not a
    directory, its path is returned exactly when its name ends with an
    important extension, whether or not the name is in [ignoreDirs]; when it
    is a directory, its path is not returned, whatever its name ends with. *)
Theorem filters_apply_by_kind fs fuel dir files q items item st :
  proper_listing fs →
  findImportantFiles fs fuel dir = Some (Ok files) →
  visited fs dir q →
  readdir fs q = Ok items → item ∈ items →
  stat fs (path_join q item) = Ok st →
  (isDirectory st = false →
     (path_join q item ∈ files ↔ important item = true)) ∧
  (isDirectory st = true → path_join q item ∉ files).
Proof.
  intros Hfs Hrun Hvis Hdir Hin Hst. split.
  - intros Hd. split.
    + intros Hp.
      pose proof (findImportantFiles_collectible fs _ _ _ _ Hrun Hp) as Hc.
      destruct (collectible_segments fs _ _ Hfs Hc)
        as (dirs & name & Hseg & _ & Himp).
      destruct (visited_segments fs _ _ Hfs Hvis) as [qdirs Hq].
      destruct (Hfs _ _ _ Hdir Hin) as [Hone _].
      rewrite (segments_path_join q item Hone), Hq, <- app_assoc in Hseg.
      apply app_inv_head in Hseg.
      apply app_inj_tail in Hseg as [_ ->]. done.
    + intros Himp. eapply scan_complete; [exact Hrun |].
      eapply visited_collectible; [exact Hvis |].
      by eapply collectible_here.
  - intros Hd Hp.
    pose proof (findImportantFiles_collectible fs _ _ _ _ Hrun Hp) as Hc.
    destruct (collectible_not_directory fs _ _ Hc) as (st' & Hst' & Hd').
    congruence.
Qed.

(** C7.  In a directory that holds the files [a.js] of 800 lines, [b.py]
    of 10 lines and [c.txt], and nothing else, in whatever order they are
    listed, the digest is the header followed by two sections: the one of
    [a.js], holding its first 50 lines, and the one of [b.py], holding all of
    its text.  There is no section for [c.txt]. *)
Theorem three_files_digest fs qwen fuel w items a b :
  readdir fs "." = Ok items →
  items ≡ₚ ["a.js"; "b.py"; "c.txt"] →
  (∀ item, item ∈ items →
     ∃ st, stat fs item = Ok st ∧ isDirectory st = false) →
  readFile fs "a.js" = Ok a → line_count a = 800 →
  readFile fs "b.py" = Ok b → line_count b = 10 →
  ∃ w' sections,
    analyzeProject fs qwen (S fuel) "." w = Some (Ok (), w') ∧
    disk w' !! digest_file = Some (digest_header +:+ render sections) ∧
    sections ≡ₚ [("a.js", excerpt a); ("b.py", b)] ∧
    Js.split Js.LF (excerpt a) = take 50 (Js.split Js.LF a) ∧
    line_count (excerpt a) = 50.
Proof.
  intros Hdir Hperm Hstat Ha Hla Hb Hlb.
  set (files := filter (λ item, important item = true) items).
  assert (findImportantFiles fs (S fuel) "." = Some (Ok files)) as Hrun.
  { assert (path_join "." <$> files = files) as Hid.
    { etrans; [|apply list_fmap_id]. by apply list_fmap_ext. }
    unfold findImportantFiles. rewrite scan_succ, Hdir, scan_items_flat.
    - fold files. by rewrite Hid.
    - apply Forall_forall. intros item Hitem. by apply Hstat. }
  assert (files ≡ₚ ["a.js"; "b.py"]) as Hfiles.
  { unfold files. by rewrite Hperm. }
  assert (take 10 files = files) as Htake.
  { apply take_ge. apply Permutation_length in Hfiles. rewrite Hfiles.
    simpl. lia. }
  exists (on_exit (qwen qwen_command (disk (world_at_exec fs files w)))
                  (world_at_exec fs files w)),
         (omap (section_for fs) files).
  split; [by apply analyzeProject_collected |].
  split; [|split; [|split]].
  - rewrite on_exit_keeps_digest. simpl.
    rewrite lookup_insert_eq. unfold digest_of. by rewrite Htake.
  - rewrite Hfiles. csimpl. unfold section_for. rewrite Ha, Hb.
    rewrite (excerpt_short b) by (rewrite Hlb; lia). done.
  - apply excerpt_lines.
  - unfold line_count. rewrite excerpt_lines, length_take.
    unfold line_count in Hla. rewrite Hla. done.
Qed.

(** ** The theorems on the samples *)

Section SampleFacts.
Import Samples.

Lemma project_proper : proper_listing project.
Proof.
  intros p items item Hdir Hin. simpl in Hdir.
  repeat case_match; simplify_eq;
    repeat (apply elem_of_cons in Hin as [->|Hin]; [by split |]);
    by apply elem_of_nil in Hin.
Qed.

Lemma project_collected :
  findImportantFiles project 3 "." =
  Some (Ok ["a.js"; "src/m.py"; "src/lib.js"]).
Proof. reflexivity. Qed.

Lemma locked_depth : within_depth locked 2 ".".
Proof.
  eapply depth_listed; [reflexivity |].
  intros item st Hin Hst Hd Hign.
  apply elem_of_cons in Hin as [->|Hin].
  { injection Hst as <-. discriminate Hd. }
  apply list_elem_of_singleton in Hin as ->.
  by eapply depth_unlistable.
Qed.

Lemma locked_visits_src : visited locked "." "src".
Proof.
  eapply (visited_below locked "." _ "src" directory);
    [reflexivity | by repeat constructor | reflexivity | reflexivity | |].
  - unfold ignoreDirs. rewrite !elem_of_cons, elem_of_nil.
    by intros [|[|[|[|]]]].
  - apply visited_here.
Qed.

Lemma three_listing : ["c.txt"; "b.py"; "a.js"] ≡ₚ ["a.js"; "b.py"; "c.txt"].
Proof. symmetry. apply (Permutation_rev ["a.js"; "b.py"; "c.txt"]). Qed.

End SampleFacts.

Lemma findImportantFiles_filters_witness :
  (∃ dirs name,
     segments "src/m.py" = root_segments "." ++ dirs ++ [name] ∧
     Forall (λ d, d ∉ ignoreDirs) dirs) ∧
  (∃ ext, ext ∈ importantExtensions ∧ Js.endsWith "src/m.py" ext = true).
Proof.
  apply (findImportantFiles_filters Samples.project 3 "."
           ["a.js"; "src/m.py"; "src/lib.js"] "src/m.py").
  - exact project_proper.
  - reflexivity.
  - by repeat constructor.
Defined.

Lemma digest_is_bounded_witness :
  ∃ w' sections,
    analyzeProject Samples.project Samples.answering 3 "." Samples.fresh
      = Some (Ok (), w') ∧
    disk w' !! digest_file = Some (digest_header +:+ render sections) ∧
    length sections ≤ 10 ∧
    sections.*1 `sublist_of` take 10 ["a.js"; "src/m.py"; "src/lib.js"] ∧
    Forall (λ sec, ∃ content,
              readFile Samples.project sec.1 = Ok content ∧
              Js.split Js.LF sec.2 = take 50 (Js.split Js.LF content) ∧
              line_count sec.2 ≤ 50) sections.
Proof.
  apply (digest_is_bounded Samples.project Samples.answering 3 "."
           Samples.fresh ["a.js"; "src/m.py"; "src/lib.js"]).
  reflexivity.
Defined.

Lemma unreadable_file_is_skipped_witness :
  ∃ w' digest,
    analyzeProject Samples.project Samples.answering 3 "." Samples.fresh
      = Some (Ok (), w') ∧
    ConsoleLog [unreadable_warning "src/m.py"] ∈ trace w' ∧
    disk w' !! digest_file = Some digest ∧
    Exec qwen_command ∈ trace w' ∧
    ∀ file content,
      file ∈ take 10 ["a.js"; "src/m.py"; "src/lib.js"] →
      readFile Samples.project file = Ok content →
      ∃ pre post, digest = pre +:+ section_of file (excerpt content) +:+ post.
Proof.
  apply (unreadable_file_is_skipped Samples.project Samples.answering 3 "."
           Samples.fresh ["a.js"; "src/m.py"; "src/lib.js"]
           "src/m.py" "EACCES").
  - reflexivity.
  - by repeat constructor.
  - reflexivity.
Defined.

Lemma failed_tool_leaves_no_report_witness :
  ∃ w' t,
    analyzeProject Samples.project Samples.failing 3 "." Samples.used
      = Some (Ok (), w') ∧
    trace w' = trace Samples.used ++ t
               ++ [ConsoleError [msg_failed; "Command failed"]] ∧
    (∀ data, WriteFile report_file data ∉ t) ∧
    disk w' !! report_file = disk Samples.used !! report_file.
Proof.
  apply (failed_tool_leaves_no_report Samples.project Samples.failing 3 "."
           Samples.used ["a.js"; "src/m.py"; "src/lib.js"] "Command failed").
  - reflexivity.
  - intros d. reflexivity.
Defined.

Lemma report_is_stdout_witness :
  ∃ w',
    analyzeProject Samples.project Samples.answering 3 "." Samples.used
      = Some (Ok (), w') ∧
    WriteFile report_file "OK" ∈ trace w' ∧
    disk w' !! report_file = Some "OK".
Proof.
  apply (report_is_stdout Samples.project Samples.answering 3 "."
           Samples.used ["a.js"; "src/m.py"; "src/lib.js"] "OK").
  - reflexivity.
  - intros d. split; reflexivity.
Defined.

Lemma walk_failure_aborts_witness :
  ∃ e' p',
    findImportantFiles Samples.locked 2 "." = Some (Throw e') ∧
    visited Samples.locked "." p' ∧ failure_at Samples.locked p' e' ∧
    analyzeProject Samples.locked Samples.answering 2 "." Samples.fresh =
      Some (Throw e', console_log [msg_scanning] Samples.fresh).
Proof.
  apply (walk_failure_aborts Samples.locked Samples.answering 2 2 "."
           "src" "EACCES" Samples.fresh).
  - exact locked_depth.
  - lia.
  - exact locked_visits_src.
  - apply unlistable. reflexivity.
Defined.

Lemma three_files_digest_witness :
  ∃ w' sections,
    analyzeProject Samples.three Samples.answering 1 "." Samples.fresh
      = Some (Ok (), w') ∧
    disk w' !! digest_file = Some (digest_header +:+ render sections) ∧
    sections ≡ₚ [("a.js", excerpt Samples.long_text);
                 ("b.py", Samples.short_text)] ∧
    Js.split Js.LF (excerpt Samples.long_text)
      = take 50 (Js.split Js.LF Samples.long_text) ∧
    line_count (excerpt Samples.long_text) = 50.
Proof.
  apply (three_files_digest Samples.three Samples.answering 0 Samples.fresh
           ["c.txt"; "b.py"; "a.js"] Samples.long_text Samples.short_text).
  - reflexivity.
  - exact three_listing.
  - intros item _. exists Samples.file. split; reflexivity.
  - reflexivity.
  - vm_compute. reflexivity.
  - reflexivity.
  - vm_compute. reflexivity.
Defined.

Lemma read_failure_leaves_digest_witness :
  (∀ projectContext w,
     (digest_step Samples.project (projectContext, w) "src/m.py").1
     = projectContext) ∧
  (∀ before after projectContext w,
     (digest_loop Samples.project (before ++ "src/m.py" :: after)
        (projectContext, w)).1 =
     (digest_loop Samples.project (before ++ after) (projectContext, w)).1).
Proof.
  apply (read_failure_leaves_digest Samples.project "src/m.py" "EACCES").
  reflexivity.
Defined.

Lemma empty_collection_still_runs_witness :
  ∃ w' w1,
    analyzeProject Samples.bare Samples.answering 1 "." Samples.fresh
      = Some (Ok (), w') ∧
    trace w1 = trace Samples.fresh ++ [ConsoleLog [msg_scanning];
                                       WriteFile digest_file digest_header;
                                       ConsoleLog [msg_sending];
                                       Exec qwen_command] ∧
    disk w1 !! digest_file = Some digest_header ∧
    w' = on_exit (Samples.answering qwen_command (disk w1)) w1 ∧
    disk w' !! digest_file = Some digest_header.
Proof.
  apply (empty_collection_still_runs Samples.bare Samples.answering 1 "."
           Samples.fresh).
  reflexivity.
Defined.

Lemma filters_apply_by_kind_witness :
  (isDirectory Samples.file = false →
     (path_join "." "a.js" ∈ ["a.js"; "src/m.py"; "src/lib.js"]
      ↔ important "a.js" = true)) ∧
  (isDirectory Samples.file = true →
     path_join "." "a.js" ∉ ["a.js"; "src/m.py"; "src/lib.js"]).
Proof.
  apply (filters_apply_by_kind Samples.project 3 "."
           ["a.js"; "src/m.py"; "src/lib.js"] "."
           ["a.js"; "build"; "src"; "notes.txt"] "a.js" Samples.file).
  - exact project_proper.
  - reflexivity.
  - apply visited_here.
  - reflexivity.
  - by repeat constructor.
  - reflexivity.
Defined.

(** * Further properties *)

(** ** The order and the extent of the collection *)

Section OrderFacts.

Variable fs : filesystem.

(** What the loop adds does not depend on what the array held. *)
Lemma scan_items_acc rec cur items :
  (∀ p files,
     rec p files = then_ (rec p []) (λ added, resolve (files ++ added))) →
  ∀ files,
    scan_items fs rec cur items files =
    then_ (scan_items fs rec cur items [])
          (λ added, resolve (files ++ added)).
Proof.
  intros Hrec. induction items as [|item rest IH]; intros files.
  { simpl. by rewrite app_nil_r. }
  rewrite !scan_items_cons.
  destruct (stat fs (path_join cur item)) as [st|e]; [|done].
  destruct (isDirectory st).
  - case_bool_decide; [apply IH |].
    rewrite (Hrec _ files).
    destruct (rec (path_join cur item) []) as [[a|e]|]; [|done..].
    simpl. rewrite (IH (files ++ a)), (IH a).
    destruct (scan_items fs rec cur rest []) as [[b|e]|]; [|done..].
    simpl. by rewrite app_assoc.
  - destruct (important item); [|apply IH].
    rewrite (IH (files ++ _)), (IH ([] ++ _)).
    destruct (scan_items fs rec cur rest []) as [[b|e]|]; [|done..].
    simpl. by rewrite <- app_assoc.
Qed.

Lemma scan_acc fuel : ∀ cur files,
  scan fs fuel cur files =
  then_ (scan fs fuel cur []) (λ added, resolve (files ++ added)).
Proof.
  induction fuel as [|fuel IH]; intros cur files; [done |].
  rewrite !scan_succ. destruct (readdir fs cur) as [items|e]; [|done].
  by apply scan_items_acc.
Qed.

Lemma scan_items_parts fuel cur items : ∀ out,
  scan_items fs (scan fs fuel) cur items [] = Some (Ok out) →
  ∃ parts,
    Forall2 (λ item part,
               entry_files fs (findImportantFiles fs fuel) cur item
               = Some (Ok part)) items parts ∧
    out = concat parts.
Proof.
  induction items as [|item rest IH]; intros out.
  { intros [= <-]. exists []. by split; [constructor |]. }
  rewrite scan_items_cons. unfold entry_files at 1.
  destruct (stat fs (path_join cur item)) as [st|e] eqn:Hst; [|done].
  assert (∀ part out,
    (if isDirectory st
     then if bool_decide (item ∈ ignoreDirs) then resolve []
          else findImportantFiles fs fuel (path_join cur item)
     else if important item then resolve [path_join cur item]
          else resolve []) = Some (Ok part) →
    scan_items fs (scan fs fuel) cur rest part = Some (Ok out) →
    ∃ parts,
      Forall2 (λ item part,
                 entry_files fs (findImportantFiles fs fuel) cur item
                 = Some (Ok part)) (item :: rest) parts ∧
      out = concat parts) as Hstep.
  { intros part out' Hpart Hrest.
    rewrite (scan_items_acc (scan fs fuel) cur rest (scan_acc fuel)) in Hrest.
    destruct (scan_items fs (scan fs fuel) cur rest []) as [[b|e]|] eqn:Hb;
      [|done..].
    injection Hrest as <-.
    destruct (IH b eq_refl) as (parts & Hparts & ->).
    exists (part :: parts). split; [|done].
    constructor; [|done]. unfold entry_files. by rewrite Hst. }
  destruct (isDirectory st).
  - case_bool_decide.
    + intros Hrest. by eapply Hstep.
    + unfold findImportantFiles in Hstep.
      destruct (scan fs fuel (path_join cur item) []) as [[a|e]|] eqn:Ha;
        [|done..].
      intros Hrest. by eapply Hstep.
  - destruct (important item); intros Hrest; by eapply Hstep.
Qed.

End OrderFacts.

(** X1.  The list returned for a directory is the concatenation, in the
    order of the listing, of what each entry brings: the walk is depth
    first and keeps the order of [fs.readdir]. *)
Theorem collection_follows_listing fs fuel cur items out :
  readdir fs cur = Ok items →
  findImportantFiles fs (S fuel) cur = Some (Ok out) →
  ∃ parts,
    Forall2 (λ item part,
               entry_files fs (findImportantFiles fs fuel) cur item
               = Some (Ok part)) items parts ∧
    out = concat parts.
Proof.
  intros Hdir. unfold findImportantFiles at 1. rewrite scan_succ, Hdir.
  apply scan_items_parts.
Qed.

(** X2.  The list returned holds the collectible paths and nothing else:
    every file with an important extension that lies behind directories
    outside [ignoreDirs] is returned. *)
Theorem collection_is_exact fs fuel dir files p :
  findImportantFiles fs fuel dir = Some (Ok files) →
  p ∈ files ↔ collectible fs dir p.
Proof.
  intros Hrun. split.
  - by apply (findImportantFiles_collectible fs fuel).
  - by apply (scan_complete fs fuel dir [] files).
Qed.

(** X3.  Over directories nested finitely deep the walk fulfils exactly
    when it meets no failure: what cannot be listed or read inside an
    ignored directory does not count. *)
Theorem walk_fulfils_iff_no_failure fs n fuel dir :
  within_depth fs n dir → n ≤ fuel →
  (∃ files, findImportantFiles fs fuel dir = Some (Ok files)) ↔
  (∀ p e, visited fs dir p → ¬ failure_at fs p e).
Proof.
  intros Hdepth Hle. split.
  - intros [files Hrun] p e Hvis Hfail.
    by eapply (scan_ok_no_failure fs).
  - intros Hnone. destruct (scan_total fs n dir Hdepth []) as [r Hr].
    apply (scan_fuel_mono fs n fuel) in Hr; [|done].
    destruct r as [files|e]; [by exists files |].
    destruct (scan_throw_failure fs _ _ _ _ Hr) as (p & Hvis & Hfail).
    by destruct (Hnone p e).
Qed.

Section DistinctFacts.

Variable fs : filesystem.
Hypothesis Hproper : proper_listing fs.
Hypothesis Hdistinct : distinct_listing fs.

(** The paths an entry brings have the name of the entry as their first
    segment below the directory. *)
Lemma entry_files_head fuel cur items item part p :
  readdir fs cur = Ok items → item ∈ items →
  entry_files fs (findImportantFiles fs fuel) cur item = Some (Ok part) →
  p ∈ part →
  ∃ tail, segments p = root_segments cur ++ item :: tail.
Proof.
  intros Hdir Hin. unfold entry_files.
  pose proof (Hproper _ _ _ Hdir Hin) as Hname.
  destruct (stat fs (path_join cur item)) as [st|e]; [|done]. simpl.
  destruct (isDirectory st).
  - case_bool_decide.
    { intros [= <-] Hp. by apply elem_of_nil in Hp. }
    intros Hsub Hp.
    pose proof (findImportantFiles_collectible fs _ _ _ _ Hsub Hp) as Hc.
    destruct (collectible_segments fs _ _ Hproper Hc)
      as (dirs & name & Hseg & _).
    exists (dirs ++ [name]).
    by rewrite Hseg, root_segments_path_join, <- app_assoc.
  - destruct (important item); intros [= <-] Hp.
    + apply list_elem_of_singleton in Hp as ->. exists [].
      apply segments_path_join, Hname.
    + by apply elem_of_nil in Hp.
Qed.

Lemma parts_distinct fuel cur all_items :
  readdir fs cur = Ok all_items →
  (∀ sub out, findImportantFiles fs fuel sub = Some (Ok out) → NoDup out) →
  ∀ items parts,
    items ⊆ all_items → NoDup items →
    Forall2 (λ item part,
               entry_files fs (findImportantFiles fs fuel) cur item
               = Some (Ok part)) items parts →
    NoDup (concat parts) ∧
    ∀ p, p ∈ concat parts →
      ∃ item tail, item ∈ items ∧
        segments p = root_segments cur ++ item :: tail.
Proof.
  intros Hdir Hsub items parts Hincl Hnodup Hparts.
  induction Hparts as [|item part items parts Hpart _ IH].
  { split; [constructor |]. intros p Hp. by apply elem_of_nil in Hp. }
  apply NoDup_cons in Hnodup as [Hfresh Hnodup].
  assert (item ∈ all_items) as Hin by (apply Hincl; left).
  destruct IH as [IHnodup IHhead]; [|done |].
  { intros x Hx. apply Hincl. by right. }
  assert (∀ p, p ∈ part →
            ∃ tail, segments p = root_segments cur ++ item :: tail) as Hhead.
  { intros p Hp. by eapply entry_files_head. }
  simpl. split.
  - apply NoDup_app. split; [|split; [|done]].
    + unfold entry_files in Hpart.
      destruct (stat fs (path_join cur item)) as [st|e]; [|done].
      simpl in Hpart. destruct (isDirectory st).
      * case_bool_decide; [injection Hpart as <-; constructor |].
        by eapply Hsub.
      * destruct (important item); injection Hpart as <-;
          [apply NoDup_singleton | constructor].
    + intros p Hp Hp'.
      destruct (Hhead p Hp) as [tail Hseg].
      destruct (IHhead p Hp') as (item' & tail' & Hin' & Hseg').
      rewrite Hseg in Hseg'. apply app_inv_head in Hseg'.
      injection Hseg' as -> _. done.
  - intros p [Hp|Hp]%elem_of_app.
    + destruct (Hhead p Hp) as [tail Hseg]. exists item, tail.
      split; [by left | done].
    + destruct (IHhead p Hp) as (item' & tail' & Hin' & Hseg').
      exists item', tail'. split; [by right | done].
Qed.

Lemma collection_distinct fuel : ∀ dir files,
  findImportantFiles fs fuel dir = Some (Ok files) → NoDup files.
Proof.
  induction fuel as [|fuel IH]; intros dir files Hrun; [done |].
  destruct (readdir fs dir) as [items|e] eqn:Hdir.
  - destruct (scan_items_parts fs fuel dir items files)
      as (parts & Hparts & ->).
    { unfold findImportantFiles in Hrun. by rewrite scan_succ, Hdir in Hrun. }
    by apply (parts_distinct fuel dir items Hdir IH items parts);
      [|eapply Hdistinct|].
  - unfold findImportantFiles in Hrun. by rewrite scan_succ, Hdir in Hrun.
Qed.

End DistinctFacts.

(** X4.  When listings hold entry names and do not repeat a name, no path
    is returned twice. *)
Theorem collection_has_no_duplicates fs fuel dir files :
  proper_listing fs → distinct_listing fs →
  findImportantFiles fs fuel dir = Some (Ok files) →
  NoDup files.
Proof. intros Hproper Hdistinct. by apply collection_distinct. Qed.

(** ** What the run reads *)

Section ReadFacts.

Variables fs1 fs2 : filesystem.
Hypothesis Hreaddir : ∀ p, readdir fs1 p = readdir fs2 p.
Hypothesis Hstat : ∀ p, stat fs1 p = stat fs2 p.

Lemma scan_items_ext rec1 rec2 cur :
  (∀ p files, rec1 p files = rec2 p files) →
  ∀ items files,
    scan_items fs1 rec1 cur items files = scan_items fs2 rec2 cur items files.
Proof.
  intros Hrec items. induction items as [|item rest IH]; intros files;
    [done |].
  rewrite !scan_items_cons, Hstat.
  destruct (stat fs2 (path_join cur item)) as [st|e]; [|done].
  destruct (isDirectory st); [|by destruct (important item)].
  case_bool_decide; [done |]. rewrite Hrec.
  destruct (rec2 (path_join cur item) files) as [[files'|e]|]; [|done..].
  apply IH.
Qed.

Lemma scan_ext fuel : ∀ cur files,
  scan fs1 fuel cur files = scan fs2 fuel cur files.
Proof.
  induction fuel as [|fuel IH]; intros cur files; [done |].
  rewrite !scan_succ, Hreaddir.
  destruct (readdir fs2 cur) as [items|e]; [|done].
  by apply scan_items_ext.
Qed.

Lemma omap_agree {B} (f g : string → option B) (l : list string) :
  (∀ x, x ∈ l → f x = g x) → omap f l = omap g l.
Proof.
  induction l as [|x l IH]; intros Hfg; [done |]. csimpl.
  rewrite (Hfg x) by left. rewrite IH; [done |].
  intros y Hy. apply Hfg. by right.
Qed.

End ReadFacts.

(** X5.  The run reads the listings, the metadata and the text of the first
    10 collected files, and nothing else: on two file systems that agree on
    these it is the same run. *)
Theorem run_reads_first_ten_only fs1 fs2 qwen fuel dir w files :
  (∀ p, readdir fs1 p = readdir fs2 p) →
  (∀ p, stat fs1 p = stat fs2 p) →
  findImportantFiles fs1 fuel dir = Some (Ok files) →
  (∀ file, file ∈ take 10 files → readFile fs1 file = readFile fs2 file) →
  analyzeProject fs1 qwen fuel dir w = analyzeProject fs2 qwen fuel dir w.
Proof.
  intros Hreaddir Hstat Hrun Hread.
  assert (findImportantFiles fs2 fuel dir = Some (Ok files)) as Hrun2.
  { unfold findImportantFiles in *. by rewrite <- (scan_ext fs1 fs2). }
  rewrite (analyzeProject_collected fs1 qwen fuel dir w files Hrun).
  rewrite (analyzeProject_collected fs2 qwen fuel dir w files Hrun2).
  assert (world_at_exec fs1 files w = world_at_exec fs2 files w) as ->;
    [|done].
  unfold world_at_exec, digest_of.
  rewrite (omap_agree (section_for fs1) (section_for fs2)).
  - rewrite (omap_agree (warning_for fs1) (warning_for fs2)); [done |].
    intros file Hfile. unfold warning_for. by rewrite Hread.
  - intros file Hfile. unfold section_for. by rewrite Hread.
Qed.

(** ** The excerpt *)

Section ExcerptFacts.
Import Js JsFacts.

Lemma join_app sep l1 l2 :
  l1 ≠ [] → l2 ≠ [] →
  join sep (l1 ++ l2) = join sep l1 +:+ sep +:+ join sep l2.
Proof.
  intros Hl1 Hl2. induction l1 as [|x [|y l1] IH]; [done | |].
  - destruct l2; [done |]. apply join_cons.
  - change ((x :: y :: l1) ++ l2) with (x :: y :: (l1 ++ l2)).
    rewrite !join_cons. change (y :: l1 ++ l2) with ((y :: l1) ++ l2).
    rewrite IH by done. by rewrite !append_assoc.
Qed.

Lemma cons_head_length c l : l ≠ [] → length (cons_head c l) = length l.
Proof. by destruct l. Qed.

Lemma line_count_pos s : 1 ≤ line_count s.
Proof.
  unfold line_count. pose proof (split_not_nil LF s).
  destruct (split LF s); simpl; [done | lia].
Qed.

(** Appending two texts joins the last line of the one with the first line
    of the other. *)
Lemma line_count_append a b :
  line_count (a +:+ b) = line_count a + line_count b - 1.
Proof.
  unfold line_count. induction a as [|c a IH].
  - rewrite append_nil_l. simpl. lia.
  - rewrite append_cons. simpl. destruct (Ascii.eqb c LF).
    + simpl. rewrite IH. pose proof (line_count_pos a).
      unfold line_count in *. lia.
    + rewrite !cons_head_length by apply split_not_nil. done.
Qed.

End ExcerptFacts.

(** X6.  The excerpt put in the digest is a prefix of the text of the
    file: lines are cut off at the end, nothing is altered. *)
Theorem excerpt_is_prefix content :
  ∃ rest, content = excerpt content +:+ rest.
Proof.
  unfold excerpt, Js.slice0, Js.nl.
  destruct (decide (length (Js.split Js.LF content) ≤ 50)) as [Hle|Hgt].
  - exists "". rewrite take_ge by done.
    by rewrite JsFacts.join_split, JsFacts.append_nil_r.
  - exists (String Js.LF "" +:+
            Js.join (String Js.LF "") (drop 50 (Js.split Js.LF content))).
    rewrite <- join_app.
    + by rewrite take_drop, JsFacts.join_split.
    + intros Hnil.
      assert (length (take 50 (Js.split Js.LF content)) = 0) as Hlen
        by (by rewrite Hnil).
      rewrite length_take in Hlen. lia.
    + intros Hnil.
      assert (length (drop 50 (Js.split Js.LF content)) = 0) as Hlen
        by (by rewrite Hnil).
      rewrite length_drop in Hlen. lia.
Qed.

(** X7.  A file of at most 50 lines that can be read is put in the digest
    whole: the loop appends the section holding all of its text. *)
Theorem short_file_in_full fs file content projectContext w :
  readFile fs file = Ok content →
  line_count content ≤ 50 →
  digest_step fs (projectContext, w) file =
  (projectContext +:+ section_of file content, w).
Proof.
  intros Hread Hshort. unfold digest_step. rewrite Hread.
  by rewrite excerpt_short.
Qed.

(** ** The digest and the history of a run *)

Section AccountFacts.

Variable fs : filesystem.

Lemma sections_are_readable (files : list string) :
  (omap (section_for fs) files).*1 =
  filter (λ file, is_readable fs file = true) files.
Proof.
  induction files as [|file files IH]; [done |].
  rewrite filter_cons. csimpl. unfold section_for at 1.
  destruct (readFile fs file) as [content|e] eqn:Hread.
  - rewrite decide_True by (unfold is_readable; by rewrite Hread).
    csimpl. by rewrite IH.
  - by rewrite decide_False by (unfold is_readable; by rewrite Hread).
Qed.

Lemma warnings_are_unreadable (files : list string) :
  omap (warning_for fs) files =
  (λ file, ConsoleLog [unreadable_warning file])
    <$> filter (λ file, is_readable fs file = false) files.
Proof.
  induction files as [|file files IH]; [done |].
  rewrite filter_cons. csimpl. unfold warning_for at 1.
  destruct (readFile fs file) as [content|e] eqn:Hread.
  - by rewrite decide_False by (unfold is_readable; by rewrite Hread).
  - rewrite decide_True by (unfold is_readable; by rewrite Hread).
    csimpl. by rewrite IH.
Qed.

Lemma on_exit_starts_nothing args w :
  ∃ t, trace (on_exit args w) = trace w ++ t ∧
       (∀ c, Exec c ∉ t) ∧
       (∀ file data, WriteFile file data ∈ t → file = report_file).
Proof.
  destruct (cb_error args) as [e|] eqn:He.
  - rewrite (on_exit_failure _ _ e He). eexists. split; [done |].
    split.
    + intros c Hin. apply list_elem_of_singleton in Hin. discriminate Hin.
    + intros file data Hin. apply list_elem_of_singleton in Hin.
      discriminate Hin.
  - rewrite (on_exit_success _ _ He). eexists. split; [done |].
    split.
    + intros c. rewrite !elem_of_cons, elem_of_nil.
      intros [Hin|[Hin|[Hin|[Hin|[]]]]]; discriminate Hin.
    + intros file data. rewrite !elem_of_cons, elem_of_nil.
      intros [Hin|[Hin|[Hin|[Hin|[]]]]]; try discriminate Hin.
      by injection Hin as -> _.
Qed.

Lemma on_exit_frame args w name :
  name ≠ report_file → disk (on_exit args w) !! name = disk w !! name.
Proof.
  intros Hname. unfold on_exit. destruct (cb_error args); [done |].
  simpl. by rewrite lookup_insert_ne.
Qed.

(** Over directories nested finitely deep, a failure the walk comes to
    makes it reject with the error of such a failure. *)
Lemma walk_rejects n fuel dir p e :
  within_depth fs n dir → n ≤ fuel →
  visited fs dir p → failure_at fs p e →
  ∃ e' p',
    findImportantFiles fs fuel dir = Some (Throw e') ∧
    visited fs dir p' ∧ failure_at fs p' e'.
Proof.
  intros Hdepth Hle Hvis Hfail.
  destruct (scan_total fs n dir Hdepth []) as [r Hr].
  apply (scan_fuel_mono fs n fuel) in Hr; [|done].
  destruct r as [out|e'].
  - destruct (scan_ok_no_failure fs _ _ _ _ Hr p e Hvis Hfail).
  - destruct (scan_throw_failure fs _ _ _ _ Hr) as (p' & Hvis' & Hfail').
    by exists e', p'.
Qed.

End AccountFacts.

(** X8.  Each of the first 10 collected files is accounted for once: the
    sections of the digest are those of the readable ones, in order, and the
    warnings logged before the digest is written are those of the unreadable
    ones, in order. *)
Theorem digest_accounts_for_each_file fs qwen fuel dir w files :
  findImportantFiles fs fuel dir = Some (Ok files) →
  ∃ w' sections t,
    analyzeProject fs qwen fuel dir w = Some (Ok (), w') ∧
    disk w' !! digest_file = Some (digest_header +:+ render sections) ∧
    sections.*1 = filter (λ file, is_readable fs file = true)
                         (take 10 files) ∧
    trace w' =
      trace w ++ [ConsoleLog [msg_scanning]]
      ++ ((λ file, ConsoleLog [unreadable_warning file])
            <$> filter (λ file, is_readable fs file = false)
                       (take 10 files))
      ++ WriteFile digest_file (digest_header +:+ render sections) :: t.
Proof.
  intros Hrun.
  destruct (on_exit_extends
              (qwen qwen_command (disk (world_at_exec fs files w)))
              (world_at_exec fs files w)) as [t Ht].
  exists (on_exit (qwen qwen_command (disk (world_at_exec fs files w)))
                  (world_at_exec fs files w)),
         (omap (section_for fs) (take 10 files)),
         ([ConsoleLog [msg_sending]; Exec qwen_command] ++ t).
  split; [by apply analyzeProject_collected |].
  split; [|split].
  - rewrite on_exit_keeps_digest. simpl. by rewrite lookup_insert_eq.
  - apply sections_are_readable.
  - rewrite Ht. unfold world_at_exec, digest_of. cbn [trace].
    rewrite warnings_are_unreadable. by rewrite <- !app_assoc.
Qed.

(** X9.  When the walk fulfils, the tool is started once, after the digest
    was written, and the digest file is not written again afterwards. *)
Theorem tool_started_once_after_digest fs qwen fuel dir w files :
  findImportantFiles fs fuel dir = Some (Ok files) →
  ∃ w' pre post,
    analyzeProject fs qwen fuel dir w = Some (Ok (), w') ∧
    trace w' = trace w ++ pre ++ Exec qwen_command :: post ∧
    WriteFile digest_file (digest_of fs files) ∈ pre ∧
    (∀ c, Exec c ∉ pre) ∧
    (∀ c, Exec c ∉ post) ∧
    (∀ data, WriteFile digest_file data ∉ post).
Proof.
  intros Hrun.
  destruct (on_exit_starts_nothing
              (qwen qwen_command (disk (world_at_exec fs files w)))
              (world_at_exec fs files w)) as (t & Ht & Hexec & Hwrite).
  exists (on_exit (qwen qwen_command (disk (world_at_exec fs files w)))
                  (world_at_exec fs files w)),
         ([ConsoleLog [msg_scanning]]
          ++ omap (warning_for fs) (take 10 files)
          ++ [WriteFile digest_file (digest_of fs files);
              ConsoleLog [msg_sending]]),
         t.
  split; [by apply analyzeProject_collected |].
  split; [|split; [|split; [|split]]].
  - rewrite Ht. unfold world_at_exec. cbn [trace].
    rewrite <- !app_assoc. do 3 f_equal.
  - rewrite !elem_of_app, !elem_of_cons. tauto.
  - intros c. rewrite !elem_of_app, !elem_of_cons, elem_of_nil.
    intros [[Hin|[]]|[Hin|[Hin|[Hin|[]]]]]; try discriminate Hin.
    by apply warning_is_log in Hin as [args Hargs].
  - done.
  - intros data Hin. apply Hwrite in Hin. by apply digest_not_report.
Qed.

(** X10.  A run writes its two files and no other: every write goes to the
    digest file or to the report file, and every other file of the working
    directory is left as it was. *)
Theorem only_the_two_files_are_written fs qwen fuel w r :
  findImportantFiles fs fuel "." = Some r →
  ∃ w' t,
    main fs qwen fuel w = Some w' ∧
    trace w' = trace w ++ t ∧
    (∀ file data,
       WriteFile file data ∈ t → file = digest_file ∨ file = report_file) ∧
    (∀ name,
       name ≠ digest_file → name ≠ report_file →
       disk w' !! name = disk w !! name).
Proof.
  intros Hrun. unfold main. destruct r as [files|e].
  - rewrite (analyzeProject_collected fs qwen fuel "." w files Hrun).
    destruct (on_exit_starts_nothing
                (qwen qwen_command (disk (world_at_exec fs files w)))
                (world_at_exec fs files w)) as (t & Ht & _ & Hwrite).
    eexists _, ([ConsoleLog [msg_scanning]]
                ++ omap (warning_for fs) (take 10 files)
                ++ [WriteFile digest_file (digest_of fs files);
                    ConsoleLog [msg_sending]; Exec qwen_command] ++ t).
    split; [done |]. split; [|split].
    + rewrite Ht. unfold world_at_exec. cbn [trace].
      by rewrite <- !app_assoc.
    + intros file data. rewrite !elem_of_app, !elem_of_cons, elem_of_nil.
      intros [[Hin|[]]|[Hin|[[Hin|[Hin|[Hin|[]]]]|Hin]]];
        try discriminate Hin.
      * by apply warning_is_log in Hin as [args Hargs].
      * injection Hin as -> _. by left.
      * right. by eapply Hwrite.
    + intros name Hd Hr. rewrite on_exit_frame by done.
      simpl. by rewrite lookup_insert_ne.
  - rewrite (analyzeProject_rejected fs qwen fuel "." w e Hrun).
    eexists _, [ConsoleLog [msg_scanning]; ConsoleError [e]].
    split; [done |]. split; [|split].
    + simpl. by rewrite <- app_assoc.
    + intros file data. rewrite !elem_of_cons, elem_of_nil.
      intros [Hin|[Hin|[]]]; discriminate Hin.
    + done.
Qed.

(** X11.  A failure of the walk is caught by the last line of the script:
    the error is printed with [console.error] after the start message,
    nothing is written and the tool is not started. *)
Theorem main_prints_walk_error fs qwen n fuel p e w :
  within_depth fs n "." → n ≤ fuel →
  visited fs "." p → failure_at fs p e →
  ∃ e' p',
    visited fs "." p' ∧ failure_at fs p' e' ∧
    main fs qwen fuel w =
      Some {| disk := disk w;
              trace := trace w ++ [ConsoleLog [msg_scanning];
                                   ConsoleError [e']] |}.
Proof.
  intros Hdepth Hle Hvis Hfail.
  destruct (walk_rejects fs n fuel "." p e Hdepth Hle Hvis Hfail)
    as (e' & p' & Hrun & Hvis' & Hfail').
  exists e', p'. split; [done |]. split; [done |].
  unfold main. rewrite (analyzeProject_rejected fs qwen fuel "." w e' Hrun).
  unfold console_error, console_log, record. simpl.
  by rewrite <- app_assoc.
Qed.

(** ** The size of the digest *)

Section SizeFacts.

Variable fs : filesystem.

Lemma line_count_section file lines :
  line_count (section_of file lines) = line_count file + line_count lines + 4.
Proof.
  unfold section_of. rewrite !line_count_append.
  assert (line_count "## Файл: " = 1) as -> by reflexivity.
  assert (line_count "```" = 1) as -> by reflexivity.
  assert (line_count Js.nl = 2) as -> by reflexivity.
  pose proof (line_count_pos file). pose proof (line_count_pos lines). lia.
Qed.

Lemma line_count_render sections :
  Forall (λ sec, line_count sec.1 = 1 ∧ line_count sec.2 ≤ 50) sections →
  line_count (render sections) ≤ 1 + 54 * length sections.
Proof.
  induction 1 as [|sec sections [Hfile Hlines] _ IH]; [done |].
  simpl. rewrite line_count_append, line_count_section, Hfile.
  pose proof (line_count_pos (render sections)). lia.
Qed.

Lemma sections_line_counts files :
  Forall (λ file, line_count file = 1) files →
  Forall (λ sec, line_count sec.1 = 1 ∧ line_count sec.2 ≤ 50)
         (omap (section_for fs) files).
Proof.
  induction 1 as [|file files Hfile _ IH]; csimpl; [done |].
  unfold section_for at 1. destruct (readFile fs file) as [content|e];
    [|done].
  constructor; [|done]. split; [done |]. apply excerpt_line_count.
Qed.

End SizeFacts.

(** X12.  When the paths of the first 10 collected files hold no line
    break, the digest has at most 543 lines: 3 of the header and at most 54
    more for each of at most 10 sections, however long the files are. *)
Theorem digest_has_at_most_543_lines fs qwen fuel dir w files :
  findImportantFiles fs fuel dir = Some (Ok files) →
  Forall (λ file, line_count file = 1) (take 10 files) →
  ∃ w' digest,
    analyzeProject fs qwen fuel dir w = Some (Ok (), w') ∧
    disk w' !! digest_file = Some digest ∧
    line_count digest ≤ 543.
Proof.
  intros Hrun Hpaths. eexists _, (digest_of fs files).
  split; [by apply analyzeProject_collected |]. split.
  - rewrite on_exit_keeps_digest. simpl. by rewrite lookup_insert_eq.
  - unfold digest_of. rewrite line_count_append.
    assert (line_count digest_header = 3) as -> by reflexivity.
    pose proof (line_count_render _ (sections_line_counts fs _ Hpaths)) as Hr.
    pose proof (omap_section_length fs (take 10 files)) as Hlen.
    rewrite length_take in Hlen. lia.
Qed.

(** ** The further properties on the samples *)

Section MoreSampleFacts.
Import Samples.

Lemma project_distinct : distinct_listing project.
Proof.
  intros p items Hdir. simpl in Hdir.
  repeat case_match; simplify_eq; by apply (bool_decide_unpack _).
Qed.

Lemma shielded_depth : within_depth shielded 1 ".".
Proof.
  eapply depth_listed; [reflexivity |].
  intros item st Hin Hst Hd Hign.
  apply elem_of_cons in Hin as [->|Hin].
  { destruct Hign. by left. }
  apply list_elem_of_singleton in Hin as ->.
  injection Hst as <-. discriminate Hd.
Qed.

Lemma project_edited_reads file :
  file ∈ take 10 ["a.js"; "src/m.py"; "src/lib.js"] →
  readFile project file = readFile project_edited file.
Proof.
  simpl. rewrite !elem_of_cons, elem_of_nil.
  by intros [->|[->|[->|[]]]].
Qed.

End MoreSampleFacts.

Lemma collection_follows_listing_witness :
  ∃ parts,
    Forall2 (λ item part,
               entry_files Samples.project
                 (findImportantFiles Samples.project 2) "." item
               = Some (Ok part))
            ["a.js"; "build"; "src"; "notes.txt"] parts ∧
    ["a.js"; "src/m.py"; "src/lib.js"] = concat parts.
Proof.
  apply (collection_follows_listing Samples.project 2 "."
           ["a.js"; "build"; "src"; "notes.txt"]
           ["a.js"; "src/m.py"; "src/lib.js"]).
  - reflexivity.
  - reflexivity.
Defined.

Lemma collection_is_exact_witness :
  "src/lib.js" ∈ ["a.js"; "src/m.py"; "src/lib.js"]
  ↔ collectible Samples.project "." "src/lib.js".
Proof.
  apply (collection_is_exact Samples.project 3 "."
           ["a.js"; "src/m.py"; "src/lib.js"] "src/lib.js").
  reflexivity.
Defined.

Lemma walk_fulfils_iff_no_failure_witness :
  (∃ files, findImportantFiles Samples.shielded 1 "." = Some (Ok files)) ↔
  (∀ p e, visited Samples.shielded "." p →
          ¬ failure_at Samples.shielded p e).
Proof.
  apply (walk_fulfils_iff_no_failure Samples.shielded 1 1 ".").
  - exact shielded_depth.
  - lia.
Defined.

Lemma collection_has_no_duplicates_witness :
  NoDup ["a.js"; "src/m.py"; "src/lib.js"].
Proof.
  apply (collection_has_no_duplicates Samples.project 3 ".").
  - exact project_proper.
  - exact project_distinct.
  - reflexivity.
Defined.

Lemma run_reads_first_ten_only_witness :
  analyzeProject Samples.project Samples.answering 3 "." Samples.fresh =
  analyzeProject Samples.project_edited Samples.answering 3 "." Samples.fresh.
Proof.
  apply (run_reads_first_ten_only Samples.project Samples.project_edited
           Samples.answering 3 "." Samples.fresh
           ["a.js"; "src/m.py"; "src/lib.js"]).
  - intros p. reflexivity.
  - intros p. reflexivity.
  - reflexivity.
  - exact project_edited_reads.
Defined.

Lemma short_file_in_full_witness :
  digest_step Samples.project (digest_header, Samples.fresh) "src/lib.js" =
  (digest_header +:+ section_of "src/lib.js" "export {};", Samples.fresh).
Proof.
  apply (short_file_in_full Samples.project "src/lib.js" "export {};"
           digest_header Samples.fresh).
  - reflexivity.
  - vm_compute. lia.
Defined.

Lemma digest_accounts_for_each_file_witness :
  ∃ w' sections t,
    analyzeProject Samples.project Samples.answering 3 "." Samples.fresh
      = Some (Ok (), w') ∧
    disk w' !! digest_file = Some (digest_header +:+ render sections) ∧
    sections.*1 = filter (λ file, is_readable Samples.project file = true)
                         (take 10 ["a.js"; "src/m.py"; "src/lib.js"]) ∧
    trace w' =
      trace Samples.fresh ++ [ConsoleLog [msg_scanning]]
      ++ ((λ file, ConsoleLog [unreadable_warning file])
            <$> filter (λ file, is_readable Samples.project file = false)
                       (take 10 ["a.js"; "src/m.py"; "src/lib.js"]))
      ++ WriteFile digest_file (digest_header +:+ render sections) :: t.
Proof.
  apply (digest_accounts_for_each_file Samples.project Samples.answering 3
           "." Samples.fresh ["a.js"; "src/m.py"; "src/lib.js"]).
  reflexivity.
Defined.

Lemma tool_started_once_after_digest_witness :
  ∃ w' pre post,
    analyzeProject Samples.project Samples.answering 3 "." Samples.fresh
      = Some (Ok (), w') ∧
    trace w' = trace Samples.fresh ++ pre ++ Exec qwen_command :: post ∧
    WriteFile digest_file
      (digest_of Samples.project ["a.js"; "src/m.py"; "src/lib.js"]) ∈ pre ∧
    (∀ c, Exec c ∉ pre) ∧
    (∀ c, Exec c ∉ post) ∧
    (∀ data, WriteFile digest_file data ∉ post).
Proof.
  apply (tool_started_once_after_digest Samples.project Samples.answering 3
           "." Samples.fresh ["a.js"; "src/m.py"; "src/lib.js"]).
  reflexivity.
Defined.

Lemma only_the_two_files_are_written_witness :
  ∃ w' t,
    main Samples.project Samples.answering 3 Samples.used = Some w' ∧
    trace w' = trace Samples.used ++ t ∧
    (∀ file data,
       WriteFile file data ∈ t → file = digest_file ∨ file = report_file) ∧
    (∀ name,
       name ≠ digest_file → name ≠ report_file →
       disk w' !! name = disk Samples.used !! name).
Proof.
  apply (only_the_two_files_are_written Samples.project Samples.answering 3
           Samples.used (Ok ["a.js"; "src/m.py"; "src/lib.js"])).
  reflexivity.
Defined.

Lemma main_prints_walk_error_witness :
  ∃ e' p',
    visited Samples.locked "." p' ∧ failure_at Samples.locked p' e' ∧
    main Samples.locked Samples.answering 2 Samples.used =
      Some {| disk := disk Samples.used;
              trace := trace Samples.used ++ [ConsoleLog [msg_scanning];
                                              ConsoleError [e']] |}.
Proof.
  apply (main_prints_walk_error Samples.locked Samples.answering 2 2
           "src" "EACCES" Samples.used).
  - exact locked_depth.
  - lia.
  - exact locked_visits_src.
  - apply unlistable. reflexivity.
Defined.

Lemma digest_has_at_most_543_lines_witness :
  ∃ w' digest,
    analyzeProject Samples.project Samples.answering 3 "." Samples.fresh
      = Some (Ok (), w') ∧
    disk w' !! digest_file = Some digest ∧
    line_count digest ≤ 543.
Proof.
  apply (digest_has_at_most_543_lines Samples.project Samples.answering 3
           "." Samples.fresh ["a.js"; "src/m.py"; "src/lib.js"]).
  - reflexivity.
  - by repeat constructor.
Defined.
